(** * State preparation by Shende-Bullock-Markov synthesis

    A shallow embedding of [library/std/unstable_state_preparation.qs]
    (namespace [Microsoft.Quantum.Unstable.StatePreparation]) and the
    properties of its gate emission.

    Conventions of the embedding:
    - a Q# [Double] is a real number ([R]): the properties below are about
      the structure of the emitted circuit and about exact arithmetic;
    - a Q# [Int] is an integer ([Z]); registers are far below 63 qubits, so
      no [Int] computed here wraps around;
    - a Q# array is a [list]; indexing fails out of range;
    - a Q# [function] returns a [result]; a Q# [operation] is a computation
      in [Op], which records the gates handed to the sink, in order, and
      keeps them when the computation fails afterwards;
    - an operation declared [is Adj] has two specialisations, selected by a
      [Functor] argument. The adjoint specialisation the compiler generates
      keeps in place, at the head of their block, the statements that call
      no operation ([let] bindings, a guard that only fails), and runs the
      other statements of the block in reverse order, each one under
      [Adjoint]; [within W apply B] becomes [within W apply (Adjoint B)].
      The controlled specialisations are not embedded;
    - recursion of an operation on itself is bounded by a [fuel] argument,
      spent by recursive calls only;
    - [-2 ^ n] is read as [-(2 ^ n)], a request to pad at the tail, as the
      comments of the source say;
    - the functions of [Microsoft.Quantum.Arrays] and [Microsoft.Quantum.Math]
      the source opens are not part of the files at hand; each is modelled
      from the specification and says so. *)

From Stdlib Require Import ZArith Reals Lra Lia List String.
From stdpp Require Import base decidable list.
Import ListNotations.

Local Open Scope Z_scope.

(** ** Failures and the two monads *)

Inductive Failure : Type :=
| InvalidArgument (msg : string)   (* a [fail] statement *)
| IndexOutOfRange                  (* array access outside the array *)
| RangeStepZero                    (* iteration of a range of step 0 *)
| OutOfFuel.                       (* the recursion bound of the model *)

Inductive result (A : Type) : Type :=
| Ok (a : A)
| Err (e : Failure).
Arguments Ok {A} a.
Arguments Err {A} e.

Definition rbind {A B} (r : result A) (k : A -> result B) : result B :=
  match r with
  | Ok a => k a
  | Err e => Err e
  end.

Definition Qubit : Type := nat.

Inductive Pauli : Type := PauliI | PauliX | PauliY | PauliZ.

Inductive Gate : Type :=
| GateH (q : Qubit)
| GateS (q : Qubit)
| GateAdjS (q : Qubit)
| GateCNOT (control target : Qubit)
| GateExp (paulis : list Pauli) (theta : R) (qubits : list Qubit).

(** The gates emitted so far, and how the computation ended. *)
Definition Op (A : Type) : Type := (list Gate * result A)%type.

Definition ret {A} (a : A) : Op A := ([], Ok a).

Definition bind {A B} (m : Op A) (k : A -> Op B) : Op B :=
  match m with
  | (tr, Ok a) => let (tr', r) := k a in (tr ++ tr', r)
  | (tr, Err e) => (tr, Err e)
  end.

Definition liftR {A} (r : result A) : Op A := ([], r).

Definition emit (g : Gate) : Op unit := ([g], Ok tt).

Definition throw {A} (e : Failure) : Op A := ([], Err e).

Definition trace {A} (m : Op A) : list Gate := fst m.
Definition outcome {A} (m : Op A) : result A := snd m.

Declare Scope res_scope.
Delimit Scope res_scope with res.
Declare Scope op_scope.
Delimit Scope op_scope with op.

Notation "x <- e ;; k" := (rbind e (fun x => k))
  (at level 62, e at next level, right associativity) : res_scope.
Notation "x <- e ;; k" := (bind e (fun x => k))
  (at level 62, e at next level, right associativity) : op_scope.
Notation "e ;;; k" := (bind e (fun _ => k))
  (at level 62, right associativity) : op_scope.

(** ** Functors *)

Inductive Functor : Type := Body | Adjoint.

Definition inv (f : Functor) : Functor :=
  match f with Body => Adjoint | Adjoint => Body end.

(** Two consecutive statements of a block, under a functor. *)
Definition seqF (f : Functor) (s1 s2 : Op unit) : Op unit :=
  match f with
  | Body => (s1 ;;; s2)%op
  | Adjoint => (s2 ;;; s1)%op
  end.

(** [within { W } apply { B }]: the [within] block, the [apply] block (given
    here under the functor of the enclosing specialisation), and the adjoint
    of the [within] block. *)
Definition within (W : Functor -> Op unit) (B : Op unit) : Op unit :=
  (W Body ;;; B ;;; W Adjoint)%op.

(** The adjoint of a gate, and of a gate sequence. *)
Definition gate_adjoint (g : Gate) : Gate :=
  match g with
  | GateH q => GateH q
  | GateS q => GateAdjS q
  | GateAdjS q => GateS q
  | GateCNOT c t => GateCNOT c t
  | GateExp ps theta qs => GateExp ps (- theta)%R qs
  end.

Definition trace_adjoint (tr : list Gate) : list Gate :=
  rev (map gate_adjoint tr).

(** [m'] emits the adjoint of what [m] emits, whenever [m] returns. *)
Definition inverts (m m' : Op unit) : Prop :=
  forall tr, m = (tr, Ok tt) -> m' = (trace_adjoint tr, Ok tt).

(** ** Intrinsic operations *)

Module Intrinsic.

Definition H (f : Functor) (q : Qubit) : Op unit := emit (GateH q).

Definition S (f : Functor) (q : Qubit) : Op unit :=
  emit (match f with Body => GateS q | Adjoint => GateAdjS q end).

Definition CNOT (f : Functor) (control target : Qubit) : Op unit :=
  emit (GateCNOT control target).

Definition Exp (f : Functor) (paulis : list Pauli) (theta : R)
    (qubits : list Qubit) : Op unit :=
  emit (GateExp paulis
          (match f with Body => theta | Adjoint => (- theta)%R end) qubits).

End Intrinsic.

(** ** Arrays and ranges *)

Definition Length {A} (a : list A) : Z := Z.of_nat (length a).

(** Modelled from the spec: [Microsoft.Quantum.Arrays.IsEmpty] ("[register]
    is empty"). *)
Definition IsEmpty {A} (a : list A) : bool := Length a =? 0.

(** [a[i]] *)
Definition index {A} (a : list A) (i : Z) : result A :=
  if i <? 0 then Err IndexOutOfRange
  else match a !! Z.to_nat i with
       | Some x => Ok x
       | None => Err IndexOutOfRange
       end.

(** [a w/ i <- v] *)
Definition update {A} (a : list A) (i : Z) (v : A) : result (list A) :=
  if (i <? 0) || (Length a <=? i) then Err IndexOutOfRange
  else Ok (<[Z.to_nat i := v]> a).

(** [[v, size = n]] *)
Definition ConstantArray {A} (n : Z) (v : A) : list A := repeat v (Z.to_nat n).

Record Range : Type := MkRange { RangeStart : Z; RangeStep : Z; RangeEnd : Z }.

(** [a .. b] and [a .. s .. b] *)
Definition range (a b : Z) : Range := MkRange a 1 b.
Definition range3 (a s b : Z) : Range := MkRange a s b.

Definition range_size (r : Range) : nat :=
  let (a, s, b) := r in
  if 0 <? s then (if a <=? b then Z.to_nat ((b - a) / s + 1) else 0%nat)
  else (if b <=? a then Z.to_nat ((a - b) / (- s) + 1) else 0%nat).

(** The values a [for] loop over the range takes, in order. *)
Definition range_items (r : Range) : result (list Z) :=
  if RangeStep r =? 0 then Err RangeStepZero
  else Ok (map (fun i : nat => RangeStart r + Z.of_nat i * RangeStep r)
             (seq 0 (range_size r))).

(** Modelled from the spec: [IsRangeEmpty], whether a loop over the range
    has no iteration ("no controls remain"). *)
Definition IsRangeEmpty (r : Range) : result bool :=
  (items <- range_items r ;;
   Ok (match items with [] => true | _ :: _ => false end))%res.

Fixpoint index_all {A} (a : list A) (idxs : list Z) : result (list A) :=
  match idxs with
  | [] => Ok []
  | i :: rest => (x <- index a i ;; xs <- index_all a rest ;; Ok (x :: xs))%res
  end.

(** [a[r]] *)
Definition slice {A} (a : list A) (r : Range) : result (list A) :=
  (items <- range_items r ;; index_all a items)%res.

(** [for i in r { set s = body(i, s) }] on the mutable variables [s]. *)
Fixpoint for_items {St} (idxs : list Z) (body : Z -> St -> result St) (s : St)
    : result St :=
  match idxs with
  | [] => Ok s
  | i :: rest => (s' <- body i s ;; for_items rest body s')%res
  end.

Definition for_range {St} (r : Range) (body : Z -> St -> result St) (s : St)
    : result St :=
  (items <- range_items r ;; for_items items body s)%res.

(** Modelled from the spec: [Microsoft.Quantum.Arrays.Padded], whose source is
    not part of the files at hand. The result has exactly [|paddedLength|]
    elements; the sign of [paddedLength] selects padding at the head
    (non-negative) or at the tail (negative); an input longer than the target
    length is an invalid argument. *)
Definition Padded {A} (paddedLength : Z) (defaultElement : A)
    (inputArray : list A) : result (list A) :=
  let nElementsInitial := Length inputArray in
  let nAbsElementsTotal := Z.abs paddedLength in
  if nAbsElementsTotal <? nElementsInitial then
    Err (InvalidArgument "Padded: the input array is longer than the target length.")
  else
    let padArray :=
      repeat defaultElement (Z.to_nat (nAbsElementsTotal - nElementsInitial)) in
    if 0 <=? paddedLength then Ok (padArray ++ inputArray)
    else Ok (inputArray ++ padArray).

(** Modelled from the spec: [Microsoft.Quantum.Arrays.Most], all elements but
    the last one ("drop the last control"). *)
Definition Most {A} (a : list A) : list A := removelast a.

(** Modelled from the spec: [Microsoft.Quantum.Arrays.Tail], the last
    element; there is none in an empty array. *)
Definition Tail {A} (a : list A) : result A :=
  if IsEmpty a then Err (InvalidArgument "Tail: the array is empty.")
  else index a (Length a - 1).

(** ** Numbers *)

#[global] Instance Rgt_decision : RelDecision Rgt := Rgt_dec.
#[global] Instance Rge_decision : RelDecision Rge := Rge_dec.
#[global] Instance Rlt_decision : RelDecision Rlt := Rlt_dec.

(** Modelled from the spec: [Microsoft.Quantum.Math.AbsD] and [Sqrt], the
    absolute value and the square root. *)
Definition AbsD (x : R) : R := Rabs x.

Definition Sqrt (x : R) : R := sqrt x.

(** Modelled from the spec: [Microsoft.Quantum.Math.ArcTan2], the angle of the
    point [(x, y)] in (-PI, PI], with "atan2(0,0) defined as 0". *)
Definition ArcTan2 (y x : R) : R :=
  if decide (0 < x)%R then atan (y / x)
  else if decide (x < 0)%R then
         (if decide (y >= 0)%R then atan (y / x) + PI else atan (y / x) - PI)%R
  else if decide (0 < y)%R then (PI / 2)%R
  else if decide (y < 0)%R then (- (PI / 2))%R
  else 0%R.

Record ComplexPolar : Type := MkComplexPolar { Magnitude : R; Argument : R }.

(** Modelled from the spec: [AbsComplexPolar] and [ArgComplexPolar], the two
    components of an amplitude "(magnitude r, phase angle t)". *)
Definition AbsComplexPolar (a : ComplexPolar) : R := Magnitude a.
Definition ArgComplexPolar (a : ComplexPolar) : R := Argument a.

(** Modelled from the spec: [ComplexAsComplexPolar(Complex(a, 0.0))] for a real
    [a]: "magnitude = |a|, phase = 0 if a >= 0 else PI". *)
Definition RealAsComplexPolar (a : R) : ComplexPolar :=
  MkComplexPolar (Rabs a) (if decide (a >= 0)%R then 0%R else PI).

(** ** Functions of the source *)

Fixpoint AnyOutsideToleranceD (tolerance : R) (coefficients : list R) : bool :=
  match coefficients with
  | [] => false
  | coefficient :: rest =>
      if decide (AbsD coefficient >= tolerance)%R then true
      else AnyOutsideToleranceD tolerance rest
  end.

Fixpoint AnyOutsideToleranceCP (tolerance : R) (coefficients : list ComplexPolar)
    : bool :=
  match coefficients with
  | [] => false
  | coefficient :: rest =>
      if decide (AbsComplexPolar coefficient > tolerance)%R then true
      else AnyOutsideToleranceCP tolerance rest
  end.

Definition MultiplexZCoefficients (coefficients : list R)
    : result (list R * list R) :=
  let newCoefficientsLength := Length coefficients ÷ 2 in
  let coefficients0 := ConstantArray newCoefficientsLength 0%R in
  let coefficients1 := ConstantArray newCoefficientsLength 0%R in
  for_range (range 0 (newCoefficientsLength - 1))
    (fun idxCoeff '(coefficients0, coefficients1) =>
       (a <- index coefficients idxCoeff ;;
        b <- index coefficients (idxCoeff + newCoefficientsLength) ;;
        coefficients0 <- update coefficients0 idxCoeff (0.5 * (a + b))%R ;;
        a' <- index coefficients idxCoeff ;;
        b' <- index coefficients (idxCoeff + newCoefficientsLength) ;;
        coefficients1 <- update coefficients1 idxCoeff (0.5 * (a' - b'))%R ;;
        Ok (coefficients0, coefficients1))%res)
    (coefficients0, coefficients1).

Definition BlochSphereCoordinates (a0 a1 : ComplexPolar)
    : ComplexPolar * R * R :=
  let abs0 := AbsComplexPolar a0 in
  let abs1 := AbsComplexPolar a1 in
  let arg0 := ArgComplexPolar a0 in
  let arg1 := ArgComplexPolar a1 in
  let r := Sqrt (abs0 * abs0 + abs1 * abs1)%R in
  let t := (0.5 * (arg0 + arg1))%R in
  let phi := (arg1 - arg0)%R in
  let theta := (2.0 * ArcTan2 abs1 abs0)%R in
  (MkComplexPolar r t, phi, theta).

Definition StatePreparationSBMComputeCoefficients
    (coefficients : list ComplexPolar)
    : result (list R * list R * list ComplexPolar) :=
  let disentanglingZ := ConstantArray (Length coefficients ÷ 2) 0.0%R in
  let disentanglingY := ConstantArray (Length coefficients ÷ 2) 0.0%R in
  let newCoefficients :=
    ConstantArray (Length coefficients ÷ 2) (MkComplexPolar 0.0 0.0) in
  (arrays <-
     for_range (range3 0 2 (Length coefficients - 1))
       (fun idxCoeff '(disentanglingZ, disentanglingY, newCoefficients) =>
          (a0 <- index coefficients idxCoeff ;;
           a1 <- index coefficients (idxCoeff + 1) ;;
           let '(rt, phi, theta) := BlochSphereCoordinates a0 a1 in
           disentanglingZ <- update disentanglingZ (idxCoeff ÷ 2) (0.5 * phi)%R ;;
           disentanglingY <- update disentanglingY (idxCoeff ÷ 2) (0.5 * theta)%R ;;
           newCoefficients <- update newCoefficients (idxCoeff ÷ 2) rt ;;
           Ok (disentanglingZ, disentanglingY, newCoefficients))%res)
       (disentanglingZ, disentanglingY, newCoefficients) ;;
   let '(disentanglingZ, disentanglingY, newCoefficients) := arrays in
   Ok (disentanglingY, disentanglingZ, newCoefficients))%res.

(** ** Operations of the source *)

Fixpoint ApproximatelyMultiplexZ (fuel : nat) (f : Functor) (tolerance : R)
    (coefficients : list R) (control : list Qubit) (target : Qubit)
    {struct fuel} : Op unit :=
  let self coefficients control :=
    match fuel with
    | O => throw OutOfFuel
    | S fuel' =>
        ApproximatelyMultiplexZ fuel' f tolerance coefficients control target
    end in
  (coefficientsPadded <-
     liftR (Padded (- 2 ^ Length control) 0.0%R coefficients) ;;
   if Length coefficientsPadded =? 1 then
     c <- liftR (index coefficientsPadded 0) ;;
     if decide (AbsD c > tolerance)%R then
       Intrinsic.Exp f [PauliZ] c [target]
     else ret tt
   else
     cs <- liftR (MultiplexZCoefficients coefficientsPadded) ;;
     let '(coefficients0, coefficients1) := cs in
     seqF f
       (self coefficients0 (Most control))
       (if AnyOutsideToleranceD tolerance coefficients1 then
          within
            (fun g => t <- liftR (Tail control) ;; Intrinsic.CNOT g t target)
            (self coefficients1 (Most control))
        else ret tt))%op.

Fixpoint ApproximatelyApplyDiagonalUnitary (fuel : nat) (f : Functor)
    (tolerance : R) (coefficients : list R) (qubits : list Qubit)
    {struct fuel} : Op unit :=
  let self coefficients qubits :=
    match fuel with
    | O => throw OutOfFuel
    | S fuel' =>
        ApproximatelyApplyDiagonalUnitary fuel' f tolerance coefficients qubits
    end in
  ((if IsEmpty qubits then
      throw (InvalidArgument
        "operation ApplyDiagonalUnitary -- Number of qubits must be greater than 0.")
    else ret tt) ;;;
   coefficientsPadded <-
     liftR (Padded (- 2 ^ Length qubits) 0.0%R coefficients) ;;
   cs <- liftR (MultiplexZCoefficients coefficientsPadded) ;;
   let '(coefficients0, coefficients1) := cs in
   seqF f
     (t <- liftR (Tail qubits) ;;
      ApproximatelyMultiplexZ fuel f tolerance coefficients1 (Most qubits) t)
     (if Length coefficientsPadded =? 2 then
        c <- liftR (index coefficients0 0) ;;
        if decide (AbsD c > tolerance)%R then
          Intrinsic.Exp f [PauliI] (1.0 * c)%R qubits
        else ret tt
      else self coefficients0 (Most qubits)))%op.

(** The source dispatches on [pauli] by calling itself: [PauliY] goes through
    [PauliX], which goes through [PauliZ]. The chain is written out here;
    [ApproximatelyMultiplexPauli_X] and [ApproximatelyMultiplexPauli_Y] below
    give back the equations of the source. The four constructors of [Pauli]
    leave nothing for the final [else] branch of the source, which fails. *)
Definition ApproximatelyMultiplexPauli (fuel : nat) (f : Functor)
    (tolerance : R) (coefficients : list R) (pauli : Pauli)
    (control : list Qubit) (target : Qubit) : Op unit :=
  let viaZ := ApproximatelyMultiplexZ fuel f tolerance coefficients control target in
  let viaX := within (fun g => Intrinsic.H g target) viaZ in
  match pauli with
  | PauliZ => viaZ
  | PauliX => viaX
  | PauliY => within (fun g => Intrinsic.S (inv g) target) viaX
  | PauliI =>
      ApproximatelyApplyDiagonalUnitary fuel f tolerance coefficients control
  end.

Fixpoint ApproximatelyUnprepareArbitraryState (fuel : nat) (f : Functor)
    (tolerance : R) (coefficients : list ComplexPolar) (rngControl : Range)
    (idxTarget : Z) (register : list Qubit) {struct fuel} : Op unit :=
  let self coefficients rngControl idxTarget :=
    match fuel with
    | O => throw OutOfFuel
    | S fuel' =>
        ApproximatelyUnprepareArbitraryState fuel' f tolerance coefficients
          rngControl idxTarget register
    end in
  let multiplex angles pauli :=
    (if AnyOutsideToleranceD tolerance angles then
       control <- liftR (slice register rngControl) ;;
       target <- liftR (index register idxTarget) ;;
       ApproximatelyMultiplexPauli fuel f tolerance angles pauli control target
     else ret tt)%op in
  (cs <- liftR (StatePreparationSBMComputeCoefficients coefficients) ;;
   let '(disentanglingY, disentanglingZ, newCoefficients) := cs in
   seqF f
     (multiplex disentanglingZ PauliZ)
     (seqF f
        (multiplex disentanglingY PauliY)
        (empty <- liftR (IsRangeEmpty rngControl) ;;
         if (empty : bool) then
           c <- liftR (index newCoefficients 0) ;;
           let arg := Argument c in
           if decide (AbsD arg > tolerance)%R then
             target <- liftR (index register idxTarget) ;;
             Intrinsic.Exp f [PauliI] (-1.0 * arg)%R [target]
           else ret tt
         else if AnyOutsideToleranceCP tolerance newCoefficients then
           let newControl :=
             range3 (RangeStart rngControl + 1) (RangeStep rngControl)
               (RangeEnd rngControl) in
           let newTarget := RangeStart rngControl in
           self newCoefficients newControl newTarget
         else ret tt)))%op.

Definition ApproximatelyPreparePureStateCP (fuel : nat) (f : Functor)
    (tolerance : R) (coefficients : list ComplexPolar) (qubits : list Qubit)
    : Op unit :=
  let nQubits := Length qubits in
  (coefficientsPadded <-
     liftR (Padded (- 2 ^ nQubits) (MkComplexPolar 0.0 0.0) coefficients) ;;
   let idxTarget := 0 in
   let rngControl :=
     if 1 <? nQubits then range 1 (nQubits - 1) else range 1 0 in
   ApproximatelyUnprepareArbitraryState fuel (inv f) tolerance
     coefficientsPadded rngControl idxTarget qubits)%op.

Definition PreparePureStateD (fuel : nat) (f : Functor) (coefficients : list R)
    (qubits : list Qubit) : Op unit :=
  let coefficientsAsComplexPolar := map RealAsComplexPolar coefficients in
  ApproximatelyPreparePureStateCP fuel f 0.0%R coefficientsAsComplexPolar qubits.

(** ** The sum/difference transform, as the specification words it *)

(** [even[i] = (angles[i] + angles[i+m]) / 2] and
    [odd[i] = (angles[i] - angles[i+m]) / 2]. *)
Definition half_sum (angles : list R) (m i : nat) : R :=
  ((nth i angles 0 + nth (i + m) angles 0) / 2)%R.
Definition half_diff (angles : list R) (m i : nat) : R :=
  ((nth i angles 0 - nth (i + m) angles 0) / 2)%R.

(** ** Auxiliary notions for the further properties *)

(** Coordinates of the [i]-th pair of consecutive coefficients. *)
Definition pair_coordinates (coefficients : list ComplexPolar) (i : nat)
    : ComplexPolar * R * R :=
  BlochSphereCoordinates (nth (2 * i) coefficients (MkComplexPolar 0 0))
    (nth (2 * i + 1) coefficients (MkComplexPolar 0 0)).

(** The squared norm of a coefficient vector. *)
Fixpoint norm2 (coefficients : list ComplexPolar) : R :=
  match coefficients with
  | [] => 0%R
  | c :: rest => (Magnitude c * Magnitude c + norm2 rest)%R
  end.

(** The body of the loop of [StatePreparationSBMComputeCoefficients]. *)
Definition SBM_body (coefficients : list ComplexPolar) (idxCoeff : Z)
    (arrays : list R * list R * list ComplexPolar)
    : result (list R * list R * list ComplexPolar) :=
  let '(disentanglingZ, disentanglingY, newCoefficients) := arrays in
  (a0 <- index coefficients idxCoeff ;;
   a1 <- index coefficients (idxCoeff + 1) ;;
   let '(rt, phi, theta) := BlochSphereCoordinates a0 a1 in
   disentanglingZ <- update disentanglingZ (idxCoeff ÷ 2) (0.5 * phi)%R ;;
   disentanglingY <- update disentanglingY (idxCoeff ÷ 2) (0.5 * theta)%R ;;
   newCoefficients <- update newCoefficients (idxCoeff ÷ 2) rt ;;
   Ok (disentanglingZ, disentanglingY, newCoefficients))%res.

(** The three arrays once the first [j] of their [p] slots are written. *)
Definition SBM_arrays (coefficients : list ComplexPolar) (p j : nat)
    : list R * list R * list ComplexPolar :=
  (map (fun i => (0.5 * (pair_coordinates coefficients i).1.2)%R) (seq 0 j)
     ++ repeat 0.0%R (p - j),
   map (fun i => (0.5 * (pair_coordinates coefficients i).2)%R) (seq 0 j)
     ++ repeat 0.0%R (p - j),
   map (fun i => (pair_coordinates coefficients i).1.1) (seq 0 j)
     ++ repeat (MkComplexPolar 0.0 0.0) (p - j)).

(** The qubits a gate acts on. *)
Definition gate_qubits (g : Gate) : list Qubit :=
  match g with
  | GateH q | GateS q | GateAdjS q => [q]
  | GateCNOT c t => [c; t]
  | GateExp _ _ qs => qs
  end.

(** The gates of a Z-axis multiplexer: Z rotations of the target, and
    [CNOT]s from a control onto the target. *)
Definition multiplexZ_gate (control : list Qubit) (target : Qubit) (g : Gate)
    : Prop :=
  (exists theta, g = GateExp [PauliZ] theta [target]) \/
  (exists c, In c control /\ g = GateCNOT c target).

(** An angle vector all of whose entries are zero. *)
Definition all_zero (angles : list R) : Prop := Forall (fun x => x = 0%R) angles.

(** The [CNOT]s of a Z-axis multiplexer. *)
Definition multiplexZ_CNOT (control : list Qubit) (target : Qubit) (g : Gate)
    : Prop :=
  exists c, In c control /\ g = GateCNOT c target.

(** A gate that acts on qubits of [qubits] only. *)
Definition acts_within (qubits : list Qubit) (g : Gate) : Prop :=
  incl (gate_qubits g) qubits.

(** The gates [ApproximatelyMultiplexPauli] adds around the Z-axis body. *)
Definition basis_change_gates (pauli : Pauli) : nat :=
  match pauli with
  | PauliY => 4
  | PauliX => 2
  | PauliZ | PauliI => 0
  end.

(** An amplitude of magnitude and phase zero. *)
Definition zero_amplitude (c : ComplexPolar) : Prop :=
  Magnitude c = 0%R /\ Argument c = 0%R.

(** * Properties *)

(** ** The monads *)

Lemma bind_liftR_Ok {A B} (a : A) (k : A -> Op B) : bind (liftR (Ok a)) k = k a.
Proof. unfold bind, liftR. destruct (k a); reflexivity. Qed.

Lemma bind_ret {A B} (a : A) (k : A -> Op B) : bind (ret a) k = k a.
Proof. apply bind_liftR_Ok. Qed.

Lemma outcome_bind {A B} (m : Op A) (k : A -> Op B) :
  outcome (bind m k) =
  match outcome m with Ok a => outcome (k a) | Err e => Err e end.
Proof. destruct m as [tr [a | e]]; simpl; [destruct (k a) |]; reflexivity. Qed.

Lemma bind_run {A B} (m : Op A) (k : A -> Op B) tr1 a tr2 r :
  m = (tr1, Ok a) -> k a = (tr2, r) -> bind m k = (tr1 ++ tr2, r).
Proof. intros -> H. simpl. rewrite H. reflexivity. Qed.

(** ** Arrays *)

Lemma Length_nonneg {A} (a : list A) : 0 <= Length a.
Proof. unfold Length. lia. Qed.

Lemma index_Ok {A} (a : list A) (i : nat) x :
  a !! i = Some x -> index a (Z.of_nat i) = Ok x.
Proof.
  intros H. unfold index.
  destruct (Z.ltb_spec (Z.of_nat i) 0); [lia |].
  rewrite Nat2Z.id, H. reflexivity.
Qed.

Lemma index_lt {A} (a : list A) (i : Z) :
  0 <= i < Length a -> exists x, index a i = Ok x.
Proof.
  unfold Length. intros H.
  destruct (lookup_lt_is_Some_2 a (Z.to_nat i)) as [x Hx]; [lia |].
  exists x. unfold index. destruct (Z.ltb_spec i 0); [lia |].
  rewrite Hx. reflexivity.
Qed.

Lemma index_nth {A} (d : A) (a : list A) (i : nat) :
  (i < length a)%nat -> index a (Z.of_nat i) = Ok (nth i a d).
Proof.
  intros H. apply index_Ok.
  destruct (nth_lookup_or_length a i d) as [E | E]; [exact E | lia].
Qed.

Lemma update_Ok {A} (a : list A) (i : nat) (v : A) :
  (i < length a)%nat -> update a (Z.of_nat i) v = Ok (<[i := v]> a).
Proof.
  intros H. unfold update, Length.
  destruct (Z.ltb_spec (Z.of_nat i) 0); [lia |].
  destruct (Z.leb_spec (Z.of_nat (length a)) (Z.of_nat i)); [lia |].
  simpl. rewrite Nat2Z.id. reflexivity.
Qed.

(** Writing slot [j] of an array whose first [j] slots are filled. *)
Lemma insert_next {A} (pre : list A) (d v : A) (k : nat) :
  <[length pre := v]> (pre ++ repeat d (S k)) = (pre ++ [v]) ++ repeat d k.
Proof.
  rewrite <- (Nat.add_0_r (length pre)), insert_app_r. simpl.
  rewrite <- app_assoc. reflexivity.
Qed.

(** ** Ranges *)

Lemma range_items_unit_step (a b : Z) :
  range_items (range3 a 1 b) =
  Ok (map (fun i : nat => a + Z.of_nat i) (seq 0 (Z.to_nat (b - a + 1)))).
Proof.
  unfold range_items, range3, range_size. simpl.
  destruct (Z.leb_spec a b).
  - rewrite Z.div_1_r. f_equal. apply map_ext. intros i. lia.
  - replace (Z.to_nat (b - a + 1)) with 0%nat by lia. reflexivity.
Qed.

Lemma range_items_upto (m : nat) :
  range_items (range 0 (Z.of_nat m - 1)) = Ok (map Z.of_nat (seq 0 m)).
Proof.
  unfold range. rewrite (range_items_unit_step 0).
  replace (Z.to_nat (Z.of_nat m - 1 - 0 + 1)) with m by lia. reflexivity.
Qed.

Lemma range_items_even (len : Z) :
  0 <= len ->
  range_items (range3 0 2 (len - 1)) =
  Ok (map (fun i : nat => 2 * Z.of_nat i) (seq 0 (Z.to_nat ((len + 1) / 2)))).
Proof.
  intros H. unfold range_items, range3, range_size. simpl.
  destruct (Z.leb_spec 0 (len - 1)).
  - f_equal.
    replace (Z.to_nat ((len - 1 - 0) / 2 + 1)) with (Z.to_nat ((len + 1) / 2)).
    + apply map_ext. intros i. lia.
    + f_equal. replace (len + 1) with (len - 1 - 0 + 1 * 2) by lia.
      rewrite Z.div_add by lia. reflexivity.
  - replace len with 0 by lia. reflexivity.
Qed.

(** ** Loops *)

(** The loop rule: an invariant [Inv j] that holds before iteration [j] and
    that each of the iterations [j < m] re-establishes for [S j]. *)
Lemma for_items_invariant {St} (Inv : nat -> St -> Prop) (g : nat -> Z)
    (body : Z -> St -> result St) (m : nat) :
  (forall j s, (j < m)%nat -> Inv j s ->
     exists s', body (g j) s = Ok s' /\ Inv (S j) s') ->
  forall k j s, (j + k = m)%nat -> Inv j s ->
    exists s', for_items (map g (seq j k)) body s = Ok s' /\ Inv m s'.
Proof.
  intros Hstep. induction k as [| k IH]; intros j s Hjk Hinv.
  - exists s. split; [reflexivity |]. replace m with j by lia. exact Hinv.
  - simpl. destruct (Hstep j s) as [s' [Hb Hinv']]; [lia | exact Hinv |].
    rewrite Hb. simpl. apply IH; [lia | exact Hinv'].
Qed.

(** ** [MultiplexZCoefficients] *)

Lemma Length_quot_2 {A} (a : list A) :
  Length a ÷ 2 = Z.of_nat (length a / 2).
Proof.
  unfold Length. rewrite Z.quot_div_nonneg by lia.
  rewrite Nat2Z.inj_div. reflexivity.
Qed.

Lemma fill_next {A} (h : nat -> A) (d v : A) (j m : nat) :
  (j < m)%nat -> v = h j ->
  <[j := v]> (map h (seq 0 j) ++ repeat d (m - j)) =
  map h (seq 0 (S j)) ++ repeat d (m - S j).
Proof.
  intros Hj ->. replace (m - j)%nat with (S (m - S j)) by lia.
  rewrite seq_S, map_app. simpl.
  rewrite <- insert_next. f_equal. rewrite length_map, length_seq. reflexivity.
Qed.

Lemma MultiplexZCoefficients_closed (angles : list R) :
  MultiplexZCoefficients angles =
  Ok (map (half_sum angles (length angles / 2)) (seq 0 (length angles / 2)),
      map (half_diff angles (length angles / 2)) (seq 0 (length angles / 2))).
Proof.
  set (m := (length angles / 2)%nat). unfold MultiplexZCoefficients.
  rewrite Length_quot_2. fold m. unfold ConstantArray, for_range.
  rewrite Nat2Z.id, range_items_upto. simpl.
  assert (Hm : (2 * m <= length angles)%nat).
  { unfold m. pose proof (Nat.div_mod_eq (length angles) 2). lia. }
  destruct (for_items_invariant
    (fun j (s : list R * list R) =>
       s = (map (half_sum angles m) (seq 0 j) ++ repeat 0%R (m - j),
            map (half_diff angles m) (seq 0 j) ++ repeat 0%R (m - j)))
    Z.of_nat
    (fun idxCoeff '(coefficients0, coefficients1) =>
       (a <- index angles idxCoeff ;;
        b <- index angles (idxCoeff + Z.of_nat m) ;;
        coefficients0 <- update coefficients0 idxCoeff (0.5 * (a + b))%R ;;
        a' <- index angles idxCoeff ;;
        b' <- index angles (idxCoeff + Z.of_nat m) ;;
        coefficients1 <- update coefficients1 idxCoeff (0.5 * (a' - b'))%R ;;
        Ok (coefficients0, coefficients1))%res)
    m) with (k := m) (j := 0%nat) (s := (repeat 0%R m, repeat 0%R m))
    as [s' [Hrun Hs']].
  - intros j s Hj ->.
    rewrite <- Nat2Z.inj_add.
    rewrite !(index_nth 0%R) by lia. simpl.
    rewrite update_Ok by (rewrite length_app, length_map, length_seq, repeat_length; lia).
    simpl.
    rewrite update_Ok by (rewrite length_app, length_map, length_seq, repeat_length; lia).
    simpl. eexists. split; [reflexivity |].
    rewrite !fill_next by (try lia; unfold half_sum, half_diff; lra).
    reflexivity.
  - lia.
  - simpl. rewrite Nat.sub_0_r. reflexivity.
  - rewrite Hrun, Hs', Nat.sub_diag. simpl. rewrite !app_nil_r. reflexivity.
Qed.

Lemma MultiplexZCoefficients_even_length (angles : list R) (m : nat) :
  length angles = (2 * m)%nat ->
  MultiplexZCoefficients angles =
  Ok (map (half_sum angles m) (seq 0 m), map (half_diff angles m) (seq 0 m)).
Proof.
  intros H. rewrite MultiplexZCoefficients_closed.
  replace (length angles / 2)%nat with m; [reflexivity |].
  rewrite H, Nat.mul_comm, Nat.div_mul; lia.
Qed.

Lemma nth_map_seq {A} (h : nat -> A) (d : A) (m i : nat) :
  (i < m)%nat -> nth i (map h (seq 0 m)) d = h i.
Proof.
  intros H. rewrite (nth_indep _ d (h 0%nat)) by (rewrite length_map, length_seq; lia).
  rewrite (map_nth h), seq_nth by lia. reflexivity.
Qed.

(** ** [BlochSphereCoordinates] *)

Lemma ArcTan2_origin : ArcTan2 0 0 = 0%R.
Proof. unfold ArcTan2. repeat case_decide; lra. Qed.

(** C1, as amended. For amplitudes [(r0, t0)] and [(r1, t1)] of non-negative
    magnitudes, [BlochSphereCoordinates] returns exactly
    [(ComplexPolar(sqrt(r0^2 + r1^2), (t0 + t1) / 2), t1 - t0, 2 * atan2(r1, r0))];
    on the degenerate input [r0 = r1 = 0] the result is defined, with
    [theta = 0] and [phi = t1 - t0], which is [0] when the two phases are
    equal. *)
Theorem BlochSphereCoordinates_value (r0 t0 r1 t1 : R) :
  (r0 >= 0)%R -> (r1 >= 0)%R ->
  BlochSphereCoordinates (MkComplexPolar r0 t0) (MkComplexPolar r1 t1) =
    (MkComplexPolar (sqrt (r0 ^ 2 + r1 ^ 2)) ((t0 + t1) / 2),
     (t1 - t0)%R, (2 * ArcTan2 r1 r0)%R) /\
  (r0 = 0%R -> r1 = 0%R ->
   exists rt,
     BlochSphereCoordinates (MkComplexPolar r0 t0) (MkComplexPolar r1 t1) =
       (rt, (t1 - t0)%R, 0%R) /\
     (t0 = t1 ->
      BlochSphereCoordinates (MkComplexPolar r0 t0) (MkComplexPolar r1 t1) =
        (rt, 0%R, 0%R))).
Proof.
  intros _ _. unfold BlochSphereCoordinates. simpl.
  replace (r0 * r0 + r1 * r1)%R with (r0 ^ 2 + r1 ^ 2)%R by ring.
  replace (0.5 * (t0 + t1))%R with ((t0 + t1) / 2)%R by lra.
  replace (2.0 * ArcTan2 r1 r0)%R with (2 * ArcTan2 r1 r0)%R by lra.
  split; [reflexivity |].
  intros -> ->. eexists. rewrite ArcTan2_origin, Rmult_0_r.
  split; [reflexivity |]. intros ->. rewrite Rminus_diag. reflexivity.
Qed.

Lemma BlochSphereCoordinates_value_witness :
  (3 >= 0)%R /\ (4 >= 0)%R /\
  BlochSphereCoordinates (MkComplexPolar 3 0) (MkComplexPolar 4 1) =
    (MkComplexPolar (sqrt (3 ^ 2 + 4 ^ 2)) ((0 + 1) / 2),
     (1 - 0)%R, (2 * ArcTan2 4 3)%R).
Proof.
  split; [lra |]. split; [lra |].
  apply (BlochSphereCoordinates_value 3 0 4 1); lra.
Defined.

(** C1, as stated, fails: on a degenerate input whose two phases differ,
    [phi] is their difference and not [0]. *)
Lemma BlochSphereCoordinates_degenerate_phi :
  let a0 := MkComplexPolar 0 0 in
  let a1 := MkComplexPolar 0 1 in
  AbsComplexPolar a0 = 0%R /\ AbsComplexPolar a1 = 0%R /\
  snd (fst (BlochSphereCoordinates a0 a1)) = 1%R /\
  snd (fst (BlochSphereCoordinates a0 a1)) <> 0%R.
Proof.
  simpl. unfold AbsComplexPolar, ArgComplexPolar. simpl.
  repeat split; lra.
Qed.

(** ** The sum/difference split *)

(** C2. On an angle vector of even length [2m], [MultiplexZCoefficients]
    returns two vectors of length [m] each, with
    [even[i] = (angles[i] + angles[i+m]) / 2] and
    [odd[i] = (angles[i] - angles[i+m]) / 2] for every [i < m]. *)
Theorem MultiplexZCoefficients_split (angles : list R) (m : nat) :
  length angles = (2 * m)%nat ->
  exists even odd,
    MultiplexZCoefficients angles = Ok (even, odd) /\
    length even = m /\ length odd = m /\
    forall i, (i < m)%nat ->
      nth i even 0%R = ((nth i angles 0 + nth (i + m) angles 0) / 2)%R /\
      nth i odd 0%R = ((nth i angles 0 - nth (i + m) angles 0) / 2)%R.
Proof.
  intros H. do 2 eexists.
  split; [apply MultiplexZCoefficients_even_length, H |].
  rewrite !length_map, !length_seq. repeat split.
  - rewrite nth_map_seq by assumption. reflexivity.
  - rewrite nth_map_seq by assumption. reflexivity.
Qed.

Lemma MultiplexZCoefficients_split_witness :
  exists even odd,
    MultiplexZCoefficients [1; 2; 3; 5]%R = Ok (even, odd) /\
    length even = 2%nat /\ length odd = 2%nat /\
    forall i, (i < 2)%nat ->
      nth i even 0%R =
        ((nth i [1; 2; 3; 5] 0 + nth (i + 2) [1; 2; 3; 5] 0) / 2)%R /\
      nth i odd 0%R =
        ((nth i [1; 2; 3; 5] 0 - nth (i + 2) [1; 2; 3; 5] 0) / 2)%R.
Proof.
  apply (MultiplexZCoefficients_split [1; 2; 3; 5]%R 2). reflexivity.
Defined.

(** C10. The split is invertible over exact arithmetic: for an angle vector
    of even length [2m] and [(even, odd) = MultiplexZCoefficients(angles)],
    [even[i] + odd[i] = angles[i]] and [even[i] - odd[i] = angles[i+m]] for
    every [i < m]. *)
Theorem MultiplexZCoefficients_invertible (angles : list R) (m : nat) :
  length angles = (2 * m)%nat ->
  exists even odd,
    MultiplexZCoefficients angles = Ok (even, odd) /\
    forall i, (i < m)%nat ->
      (nth i even 0 + nth i odd 0 = nth i angles 0)%R /\
      (nth i even 0 - nth i odd 0 = nth (i + m) angles 0)%R.
Proof.
  intros H. do 2 eexists.
  split; [apply MultiplexZCoefficients_even_length, H |].
  intros i Hi. rewrite !nth_map_seq by assumption.
  unfold half_sum, half_diff. split; lra.
Qed.

Lemma MultiplexZCoefficients_invertible_witness :
  exists even odd,
    MultiplexZCoefficients [1; 2; 3; 5]%R = Ok (even, odd) /\
    forall i, (i < 2)%nat ->
      (nth i even 0 + nth i odd 0 = nth i [1; 2; 3; 5] 0)%R /\
      (nth i even 0 - nth i odd 0 = nth (i + 2) [1; 2; 3; 5] 0)%R.
Proof.
  apply (MultiplexZCoefficients_invertible [1; 2; 3; 5]%R 2). reflexivity.
Defined.

(** ** Padding, [Most] and [Tail] *)

Lemma Padded_tail {A} (n : Z) (d : A) (a : list A) :
  0 < n -> Length a <= n ->
  Padded (- n) d a = Ok (a ++ repeat d (Z.to_nat (n - Length a))).
Proof.
  intros Hn Hlen. unfold Padded.
  replace (Z.abs (- n)) with n by lia.
  destruct (Z.ltb_spec n (Length a)); [lia |].
  destruct (Z.leb_spec 0 (- n)); [lia | reflexivity].
Qed.

Lemma Padded_too_long {A} (n : Z) (d : A) (a : list A) :
  Z.abs n < Length a -> exists msg, Padded n d a = Err (InvalidArgument msg).
Proof.
  intros H. unfold Padded.
  destruct (Z.ltb_spec (Z.abs n) (Length a)); [| lia]. eexists. reflexivity.
Qed.

Lemma Padded_Length {A} (n : Z) (d : A) (a b : list A) :
  Padded n d a = Ok b -> Length b = Z.abs n.
Proof.
  unfold Padded. destruct (Z.ltb_spec (Z.abs n) (Length a)); [discriminate |].
  destruct (0 <=? n); intros [= <-]; unfold Length in *;
    rewrite length_app, repeat_length; lia.
Qed.

Lemma pow2_pos (k : Z) : 0 <= k -> 0 < 2 ^ k.
Proof. intros H. apply Z.pow_pos_nonneg; lia. Qed.

Lemma Length_app_one {A} (a : list A) (x : A) : Length (a ++ [x]) = Length a + 1.
Proof. unfold Length. rewrite length_app. simpl. lia. Qed.

Lemma pow2_Length_app_one {A} (a : list A) (x : A) :
  2 ^ Length (a ++ [x]) = 2 * 2 ^ Length a.
Proof.
  rewrite Length_app_one, Z.pow_add_r by (pose proof (Length_nonneg a); lia).
  lia.
Qed.

Lemma Most_app_one {A} (a : list A) (x : A) : Most (a ++ [x]) = a.
Proof. apply removelast_last. Qed.

Lemma Tail_app_one {A} (a : list A) (x : A) : Tail (a ++ [x]) = Ok x.
Proof.
  unfold Tail, IsEmpty. rewrite Length_app_one.
  pose proof (Length_nonneg a).
  destruct (Z.eqb_spec (Length a + 1) 0); [lia |].
  replace (Length a + 1 - 1) with (Z.of_nat (length a)) by (unfold Length; lia).
  apply index_Ok. rewrite lookup_app_r by lia.
  rewrite Nat.sub_diag. reflexivity.
Qed.

(** Each recursive call on [Most] of a non-empty array is on a shorter one. *)
Lemma Most_shorter {A} (a : list A) :
  a <> [] -> (length (Most a) < length a)%nat.
Proof.
  intros H. destruct (exists_last H) as [a' [x ->]].
  rewrite Most_app_one, length_app. simpl. lia.
Qed.

(** ** [AnyOutsideToleranceD] *)

Lemma AnyOutsideToleranceD_spec (tolerance : R) (coefficients : list R) :
  AnyOutsideToleranceD tolerance coefficients = true <->
  exists c, In c coefficients /\ (Rabs c >= tolerance)%R.
Proof.
  induction coefficients as [| c rest IH]; simpl.
  - split; [discriminate | intros [c [[] _]]].
  - unfold AbsD at 1. case_decide as Hc.
    + split; [| reflexivity]. intros _. exists c. auto.
    + rewrite IH. split.
      * intros [c' [Hin Hge]]. exists c'. auto.
      * intros [c' [[<- | Hin] Hge]]; [contradiction | exists c'; auto].
Qed.

Lemma AnyOutsideToleranceD_nonpositive (tolerance : R) (coefficients : list R) :
  (tolerance <= 0)%R -> coefficients <> [] ->
  AnyOutsideToleranceD tolerance coefficients = true.
Proof.
  intros Htol Hne. destruct coefficients as [| c rest]; [contradiction |].
  simpl. unfold AbsD. case_decide as Hc; [reflexivity |].
  pose proof (Rabs_pos c). lra.
Qed.

(** ** [ApproximatelyMultiplexZ] *)

Lemma ApproximatelyMultiplexZ_eq (fuel : nat) (f : Functor) (tolerance : R)
    (coefficients : list R) (control : list Qubit) (target : Qubit) :
  ApproximatelyMultiplexZ fuel f tolerance coefficients control target =
  (coefficientsPadded <-
     liftR (Padded (- 2 ^ Length control) 0.0%R coefficients) ;;
   if Length coefficientsPadded =? 1 then
     c <- liftR (index coefficientsPadded 0) ;;
     if decide (AbsD c > tolerance)%R then
       Intrinsic.Exp f [PauliZ] c [target]
     else ret tt
   else
     cs <- liftR (MultiplexZCoefficients coefficientsPadded) ;;
     let '(coefficients0, coefficients1) := cs in
     seqF f
       (match fuel with
        | O => throw OutOfFuel
        | S fuel' =>
            ApproximatelyMultiplexZ fuel' f tolerance coefficients0
              (Most control) target
        end)
       (if AnyOutsideToleranceD tolerance coefficients1 then
          within
            (fun g => t <- liftR (Tail control) ;; Intrinsic.CNOT g t target)
            (match fuel with
             | O => throw OutOfFuel
             | S fuel' =>
                 ApproximatelyMultiplexZ fuel' f tolerance coefficients1
                   (Most control) target
             end)
        else ret tt))%op.
Proof. destruct fuel; reflexivity. Qed.

Lemma ApproximatelyMultiplexZ_leaf (fuel : nat) (f : Functor) (tolerance : R)
    (coefficients : list R) (c : R) (target : Qubit) :
  Padded (- 2 ^ Length (@nil Qubit)) 0.0%R coefficients = Ok [c] ->
  ApproximatelyMultiplexZ fuel f tolerance coefficients [] target =
  if decide (AbsD c > tolerance)%R then Intrinsic.Exp f [PauliZ] c [target]
  else ret tt.
Proof.
  intros H. rewrite ApproximatelyMultiplexZ_eq, H, bind_liftR_Ok.
  change (Length [c] =? 1) with true. cbv iota.
  change (index [c] 0) with (Ok c). rewrite bind_liftR_Ok. reflexivity.
Qed.

Lemma ApproximatelyMultiplexZ_node (fuel : nat) (f : Functor) (tolerance : R)
    (coefficients : list R) (control : list Qubit) (last target : Qubit)
    (coefficientsPadded coefficients0 coefficients1 : list R) :
  Padded (- 2 ^ Length (control ++ [last])) 0.0%R coefficients =
    Ok coefficientsPadded ->
  MultiplexZCoefficients coefficientsPadded = Ok (coefficients0, coefficients1) ->
  ApproximatelyMultiplexZ (S fuel) f tolerance coefficients (control ++ [last])
    target =
  seqF f
    (ApproximatelyMultiplexZ fuel f tolerance coefficients0 control target)
    (if AnyOutsideToleranceD tolerance coefficients1 then
       within (fun g => Intrinsic.CNOT g last target)
         (ApproximatelyMultiplexZ fuel f tolerance coefficients1 control target)
     else ret tt).
Proof.
  intros Hpad Hsplit.
  rewrite ApproximatelyMultiplexZ_eq, Hpad, bind_liftR_Ok.
  apply Padded_Length in Hpad. rewrite Hpad.
  rewrite Z.abs_opp, Z.abs_eq, pow2_Length_app_one
    by (apply Z.lt_le_incl, pow2_pos, Length_nonneg).
  pose proof (pow2_pos (Length control) (Length_nonneg _)).
  destruct (Z.eqb_spec (2 * 2 ^ Length control) 1); [lia |].
  rewrite Hsplit, bind_liftR_Ok, Most_app_one.
  unfold within. rewrite Tail_app_one, !bind_liftR_Ok. reflexivity.
Qed.

Lemma MultiplexZCoefficients_lengths (angles c0 c1 : list R) :
  MultiplexZCoefficients angles = Ok (c0, c1) ->
  length c0 = (length angles / 2)%nat /\ length c1 = (length angles / 2)%nat.
Proof.
  rewrite MultiplexZCoefficients_closed. intros [= <- <-].
  rewrite !length_map, !length_seq. split; reflexivity.
Qed.

Lemma within_run (W : Functor -> Op unit) (B : Op unit) pre tr post :
  W Body = (pre, Ok tt) -> B = (tr, Ok tt) -> W Adjoint = (post, Ok tt) ->
  within W B = (pre ++ tr ++ post, Ok tt).
Proof.
  intros HW HB HW'. unfold within.
  apply bind_run with (a := tt); [exact HW |].
  apply bind_run with (a := tt); [exact HB | exact HW'].
Qed.

Lemma ApproximatelyMultiplexZ_zero_leaf (fuel : nat) (f : Functor)
    (tolerance : R) (target : Qubit) :
  (0 <= tolerance)%R ->
  ApproximatelyMultiplexZ fuel f tolerance [0%R] [] target = ([], Ok tt).
Proof.
  intros H. rewrite (ApproximatelyMultiplexZ_leaf _ _ _ _ 0%R) by reflexivity.
  unfold AbsD. rewrite Rabs_R0. case_decide; [lra | reflexivity].
Qed.

(** C3. In [ApproximatelyMultiplexZ] on a non-empty control register, the odd
    half is expanded (conjugated by [CNOT] from the dropped control) exactly
    when [AnyOutsideToleranceD] holds of it, that is, when some
    [|odd[i]| >= tolerance]; at tolerance [0] this always holds. The leaf on
    an empty control register emits its [Z] rotation exactly when
    [|angle| > tolerance], so that a leaf angle [0] is elided at tolerance [0]. *)
Theorem ApproximatelyMultiplexZ_pruning (fuel : nat) (tolerance : R)
    (angles : list R) (control : list Qubit) (last target : Qubit)
    (padded even odd : list R) (angle : R) :
  Padded (- 2 ^ Length (control ++ [last])) 0.0%R angles = Ok padded ->
  MultiplexZCoefficients padded = Ok (even, odd) ->
  (ApproximatelyMultiplexZ (S fuel) Body tolerance angles (control ++ [last])
     target =
   (ApproximatelyMultiplexZ fuel Body tolerance even control target ;;;
    if AnyOutsideToleranceD tolerance odd then
      Intrinsic.CNOT Body last target ;;;
      ApproximatelyMultiplexZ fuel Body tolerance odd control target ;;;
      Intrinsic.CNOT Adjoint last target
    else ret tt)%op) /\
  (AnyOutsideToleranceD tolerance odd = true <->
   exists i x, odd !! i = Some x /\ (Rabs x >= tolerance)%R) /\
  (tolerance = 0%R -> AnyOutsideToleranceD tolerance odd = true) /\
  (ApproximatelyMultiplexZ fuel Body tolerance [angle] [] target =
   if decide (Rabs angle > tolerance)%R
   then ([GateExp [PauliZ] angle [target]], Ok tt)
   else ([], Ok tt)) /\
  ApproximatelyMultiplexZ fuel Body 0 [0%R] [] target = ([], Ok tt).
Proof.
  intros Hpad Hsplit. split; [| split; [| split; [| split]]].
  - rewrite (ApproximatelyMultiplexZ_node _ _ _ _ _ _ _ _ _ _ Hpad Hsplit).
    reflexivity.
  - rewrite AnyOutsideToleranceD_spec. split.
    + intros [x [Hin Hx]]. apply list_elem_of_In, list_elem_of_lookup in Hin.
      destruct Hin as [i Hi]. eauto.
    + intros [i [x [Hi Hx]]]. exists x. split; [| exact Hx].
      apply list_elem_of_In, list_elem_of_lookup. eauto.
  - intros ->. apply AnyOutsideToleranceD_nonpositive; [lra |].
    intros ->. apply Padded_Length in Hpad.
    apply MultiplexZCoefficients_lengths in Hsplit as [_ Hodd].
    change (@length R []) with 0%nat in Hodd.
    rewrite Z.abs_opp, Z.abs_eq, pow2_Length_app_one in Hpad
      by (apply Z.lt_le_incl, pow2_pos, Length_nonneg).
    pose proof (pow2_pos (Length control) (Length_nonneg _)).
    unfold Length in Hpad at 1.
    pose proof (Nat.div_str_pos (length padded) 2). lia.
  - apply ApproximatelyMultiplexZ_leaf. reflexivity.
  - apply ApproximatelyMultiplexZ_zero_leaf. lra.
Qed.

Lemma ApproximatelyMultiplexZ_pruning_witness :
  let even := [(0.5 * (1 + 1))%R] in
  let odd := [(0.5 * (1 - 1))%R] in
  (ApproximatelyMultiplexZ 1 Body 0 [1; 1]%R ([] ++ [7%nat]) 3%nat =
   (ApproximatelyMultiplexZ 0 Body 0 even [] 3%nat ;;;
    if AnyOutsideToleranceD 0 odd then
      Intrinsic.CNOT Body 7%nat 3%nat ;;;
      ApproximatelyMultiplexZ 0 Body 0 odd [] 3%nat ;;;
      Intrinsic.CNOT Adjoint 7%nat 3%nat
    else ret tt)%op) /\
  (AnyOutsideToleranceD 0 odd = true <->
   exists i x, odd !! i = Some x /\ (Rabs x >= 0)%R) /\
  (0%R = 0%R -> AnyOutsideToleranceD 0 odd = true) /\
  (ApproximatelyMultiplexZ 0 Body 0 [1%R] [] 3%nat =
   if decide (Rabs 1 > 0)%R
   then ([GateExp [PauliZ] 1 [3%nat]], Ok tt)
   else ([], Ok tt)) /\
  ApproximatelyMultiplexZ 0 Body 0 [0%R] [] 3%nat = ([], Ok tt).
Proof.
  apply (ApproximatelyMultiplexZ_pruning 0 0 [1; 1]%R [] 7%nat 3%nat
           [1; 1]%R [0.5 * (1 + 1)]%R [0.5 * (1 - 1)]%R 1%R);
    reflexivity.
Defined.

(** ** [ApproximatelyMultiplexPauli] *)

(** The equations of the source, branch by branch. *)
Lemma ApproximatelyMultiplexPauli_Z fuel f tolerance coefficients control target :
  ApproximatelyMultiplexPauli fuel f tolerance coefficients PauliZ control target =
  ApproximatelyMultiplexZ fuel f tolerance coefficients control target.
Proof. reflexivity. Qed.

Lemma ApproximatelyMultiplexPauli_X fuel f tolerance coefficients control target :
  ApproximatelyMultiplexPauli fuel f tolerance coefficients PauliX control target =
  within (fun g => Intrinsic.H g target)
    (ApproximatelyMultiplexPauli fuel f tolerance coefficients PauliZ control
       target).
Proof. reflexivity. Qed.

Lemma ApproximatelyMultiplexPauli_Y fuel f tolerance coefficients control target :
  ApproximatelyMultiplexPauli fuel f tolerance coefficients PauliY control target =
  within (fun g => Intrinsic.S (inv g) target)
    (ApproximatelyMultiplexPauli fuel f tolerance coefficients PauliX control
       target).
Proof. reflexivity. Qed.

Lemma ApproximatelyMultiplexPauli_I fuel f tolerance coefficients control target :
  ApproximatelyMultiplexPauli fuel f tolerance coefficients PauliI control target =
  ApproximatelyApplyDiagonalUnitary fuel f tolerance coefficients control.
Proof. reflexivity. Qed.

Lemma ApproximatelyMultiplexPauli_X_run fuel f tolerance coefficients control
    target tr :
  ApproximatelyMultiplexZ fuel f tolerance coefficients control target =
    (tr, Ok tt) ->
  ApproximatelyMultiplexPauli fuel f tolerance coefficients PauliX control target =
    (GateH target :: tr ++ [GateH target], Ok tt).
Proof.
  intros H. rewrite ApproximatelyMultiplexPauli_X, ApproximatelyMultiplexPauli_Z.
  apply (within_run _ _ [GateH target] tr [GateH target]); auto.
Qed.

Lemma ApproximatelyMultiplexPauli_Y_run fuel f tolerance coefficients control
    target tr :
  ApproximatelyMultiplexZ fuel f tolerance coefficients control target =
    (tr, Ok tt) ->
  ApproximatelyMultiplexPauli fuel f tolerance coefficients PauliY control target =
    (GateAdjS target :: GateH target :: tr ++ [GateH target; GateS target],
     Ok tt).
Proof.
  intros H. rewrite ApproximatelyMultiplexPauli_Y.
  rewrite (within_run _ _ [GateAdjS target] (GateH target :: tr ++ [GateH target])
             [GateS target]); auto.
  - simpl. rewrite <- app_assoc. reflexivity.
  - apply ApproximatelyMultiplexPauli_X_run, H.
Qed.

(** ** [ApproximatelyApplyDiagonalUnitary] *)

(** C5. On an empty register [ApproximatelyApplyDiagonalUnitary] fails with
    the invalid-argument failure of its guard, for every tolerance and angle
    vector, and no gate has been emitted when it does. *)
Theorem ApproximatelyApplyDiagonalUnitary_empty_register (fuel : nat)
    (tolerance : R) (coefficients : list R) :
  ApproximatelyApplyDiagonalUnitary fuel Body tolerance coefficients [] =
  ([], Err (InvalidArgument
     "operation ApplyDiagonalUnitary -- Number of qubits must be greater than 0.")).
Proof. destruct fuel; reflexivity. Qed.

(** ** Outcomes of composite operations *)

Lemma outcome_seqF (f : Functor) (s1 s2 : Op unit) :
  outcome s1 = Ok tt -> outcome s2 = Ok tt -> outcome (seqF f s1 s2) = Ok tt.
Proof.
  intros H1 H2. destruct f; simpl; rewrite outcome_bind.
  - rewrite H1. exact H2.
  - rewrite H2. exact H1.
Qed.

Lemma outcome_within (W : Functor -> Op unit) (B : Op unit) :
  outcome (W Body) = Ok tt -> outcome B = Ok tt ->
  outcome (W Adjoint) = Ok tt -> outcome (within W B) = Ok tt.
Proof.
  intros H1 H2 H3. unfold within.
  rewrite outcome_bind, H1, outcome_bind, H2. exact H3.
Qed.

(** ** [StatePreparationSBMComputeCoefficients] *)

Lemma StatePreparationSBMComputeCoefficients_lengths
    (coefficients : list ComplexPolar) (m : nat) :
  length coefficients = (2 * m)%nat ->
  exists disentanglingY disentanglingZ newCoefficients,
    StatePreparationSBMComputeCoefficients coefficients =
      Ok (disentanglingY, disentanglingZ, newCoefficients) /\
    length disentanglingY = m /\ length disentanglingZ = m /\
    length newCoefficients = m.
Proof.
  intros Hlen. unfold StatePreparationSBMComputeCoefficients.
  assert (Hq : Length coefficients ÷ 2 = Z.of_nat m).
  { rewrite Length_quot_2, Hlen, Nat.mul_comm, Nat.div_mul; lia. }
  rewrite Hq. unfold ConstantArray, for_range.
  rewrite Nat2Z.id, range_items_even by apply Length_nonneg.
  replace (Z.to_nat ((Length coefficients + 1) / 2)) with m.
  2:{ unfold Length. rewrite Hlen.
      replace (Z.of_nat (2 * m) + 1) with (1 + Z.of_nat m * 2) by lia.
      rewrite Z.div_add by lia. change (1 / 2) with 0. lia. }
  simpl.
  edestruct (for_items_invariant
    (fun (_ : nat) (s : list R * list R * list ComplexPolar) =>
       length s.1.1 = m /\ length s.1.2 = m /\ length s.2 = m)
    (fun i : nat => 2 * Z.of_nat i)) with (m := m) (k := m) (j := 0%nat)
    as [s' [Hrun Hs']]; cycle 3.
  - rewrite Hrun. simpl. destruct s' as [[dZ dY] nc].
    simpl in Hs'. destruct Hs' as [HZ [HY Hnc]]. eauto 10.
  - intros j [[dZ dY] nc] Hj [HZ [HY Hnc]]. simpl in HZ, HY, Hnc.
    replace (2 * Z.of_nat j ÷ 2) with (Z.of_nat j)
      by (rewrite Z.mul_comm, Z.quot_mul; lia).
    replace (2 * Z.of_nat j + 1) with (Z.of_nat (2 * j + 1)) by lia.
    replace (2 * Z.of_nat j) with (Z.of_nat (2 * j)) by lia.
    rewrite !(index_nth (MkComplexPolar 0 0)) by lia. cbn [rbind].
    rewrite update_Ok by lia. cbn [rbind].
    rewrite update_Ok by lia. cbn [rbind].
    rewrite update_Ok by lia. cbn [rbind].
    eexists. split; [reflexivity |]. simpl. rewrite !length_insert. auto.
  - lia.
  - simpl. rewrite !repeat_length. auto.
Qed.

(** ** Success of [ApproximatelyMultiplexZ] on well-formed input *)

Lemma snoc_case {A} (l : list A) : l = [] \/ exists l' x, l = l' ++ [x].
Proof. destruct l using rev_ind; eauto. Qed.

Lemma Padded_pow2 {A} (d : A) (k : Z) (a : list A) :
  0 <= k -> Length a <= 2 ^ k ->
  exists padded, Padded (- 2 ^ k) d a = Ok padded /\ Length padded = 2 ^ k.
Proof.
  intros Hk Hlen. pose proof (pow2_pos k Hk) as Hpos.
  pose proof (Padded_tail _ d a Hpos Hlen) as Hpad.
  eexists. split; [exact Hpad |].
  apply Padded_Length in Hpad. lia.
Qed.

Lemma half_Length {A} (a : list A) (n : Z) :
  Length a = 2 * n -> Z.of_nat (length a / 2) = n.
Proof.
  unfold Length. intros H. rewrite Nat2Z.inj_div, H.
  rewrite Z.mul_comm, Z.div_mul; lia.
Qed.

Lemma ApproximatelyMultiplexZ_succeeds (fuel : nat) (f : Functor)
    (tolerance : R) :
  forall (control : list Qubit) (coefficients : list R) (target : Qubit),
    (length control <= fuel)%nat ->
    Length coefficients <= 2 ^ Length control ->
    outcome (ApproximatelyMultiplexZ fuel f tolerance coefficients control
               target) = Ok tt.
Proof.
  induction fuel as [| fuel IH]; intros control coefficients target Hfuel Hlen;
    destruct (Padded_pow2 0.0%R _ coefficients (Length_nonneg control) Hlen)
      as [padded [Hpad HpadLen]];
    destruct (snoc_case control) as [-> | [control' [q ->]]];
    try (rewrite length_app in Hfuel; simpl in Hfuel; lia).
  1, 2:
    rewrite ApproximatelyMultiplexZ_eq, Hpad, bind_liftR_Ok, HpadLen;
    change (2 ^ Length (@nil Qubit) =? 1) with true; cbv iota;
    destruct (index_lt padded 0) as [c Hc];
      [rewrite HpadLen; change (2 ^ Length (@nil Qubit)) with 1; lia |];
    rewrite Hc, bind_liftR_Ok; case_decide; reflexivity.
  rewrite (ApproximatelyMultiplexZ_node _ _ _ _ _ _ _ _ _ _ Hpad
             (MultiplexZCoefficients_closed _)).
  rewrite pow2_Length_app_one in HpadLen.
  rewrite length_app in Hfuel. simpl in Hfuel.
  apply half_Length in HpadLen.
  apply outcome_seqF.
  - apply IH; [lia |]. unfold Length at 1.
    rewrite length_map, length_seq. lia.
  - destruct (AnyOutsideToleranceD _ _); [| reflexivity].
    apply outcome_within; try reflexivity.
    apply IH; [lia |]. unfold Length at 1.
    rewrite length_map, length_seq. lia.
Qed.

Lemma ApproximatelyMultiplexPauli_succeeds (fuel : nat) (f : Functor)
    (tolerance : R) (coefficients : list R) (pauli : Pauli)
    (control : list Qubit) (target : Qubit) :
  pauli <> PauliI ->
  (length control <= fuel)%nat ->
  Length coefficients <= 2 ^ Length control ->
  outcome (ApproximatelyMultiplexPauli fuel f tolerance coefficients pauli
             control target) = Ok tt.
Proof.
  intros Hp Hfuel Hlen.
  pose proof (ApproximatelyMultiplexZ_succeeds fuel f tolerance control
                coefficients target Hfuel Hlen) as HZ.
  destruct pauli; [contradiction | | |]; unfold ApproximatelyMultiplexPauli.
  - apply outcome_within; auto.
  - apply outcome_within; auto. apply outcome_within; auto.
  - exact HZ.
Qed.

(** C4. On every tolerance, target, control register and angle vector of at
    most [2^k] entries for [k] controls, the Z-axis body returns, with some
    trace [tr], and [ApproximatelyMultiplexPauli] on axis [X] emits [H], then
    [tr], then [H] on the target, and on axis [Y] emits [Adjoint S], [H],
    then [tr], then [H], [S]; the closing gates are emitted for an empty [tr]
    as for any other. *)
Theorem ApproximatelyMultiplexPauli_basis_change (fuel : nat) (tolerance : R)
    (coefficients : list R) (control : list Qubit) (target : Qubit) :
  (length control <= fuel)%nat ->
  Length coefficients <= 2 ^ Length control ->
  exists tr,
    ApproximatelyMultiplexZ fuel Body tolerance coefficients control target =
      (tr, Ok tt) /\
    ApproximatelyMultiplexPauli fuel Body tolerance coefficients PauliX control
      target =
      ([GateH target] ++ tr ++ [GateH target], Ok tt) /\
    ApproximatelyMultiplexPauli fuel Body tolerance coefficients PauliY control
      target =
      ([GateAdjS target; GateH target] ++ tr ++ [GateH target; GateS target],
       Ok tt).
Proof.
  intros Hfuel Hlen.
  pose proof (ApproximatelyMultiplexZ_succeeds fuel Body tolerance control
                coefficients target Hfuel Hlen) as Hok.
  destruct (ApproximatelyMultiplexZ fuel Body tolerance coefficients control
              target) as [tr r] eqn:Hrun.
  simpl in Hok. subst r. exists tr. split; [reflexivity |]. split.
  - apply ApproximatelyMultiplexPauli_X_run, Hrun.
  - apply ApproximatelyMultiplexPauli_Y_run, Hrun.
Qed.

Lemma ApproximatelyMultiplexPauli_basis_change_witness :
  ApproximatelyMultiplexZ 0 Body 0 [0%R] [] 4%nat = ([], Ok tt) /\
  ApproximatelyMultiplexPauli 0 Body 0 [0%R] PauliX [] 4%nat =
    ([GateH 4%nat; GateH 4%nat], Ok tt) /\
  ApproximatelyMultiplexPauli 0 Body 0 [0%R] PauliY [] 4%nat =
    ([GateAdjS 4%nat; GateH 4%nat; GateH 4%nat; GateS 4%nat], Ok tt).
Proof.
  assert (Hfuel : (length (@nil Qubit) <= 0)%nat) by (simpl; lia).
  assert (Hlen : Length [0%R] <= 2 ^ Length (@nil Qubit))
    by (unfold Length; simpl; lia).
  destruct (ApproximatelyMultiplexPauli_basis_change 0 0 [0%R] [] 4%nat
              Hfuel Hlen) as [tr [Hrun [HX HY]]].
  assert (Hleaf : ApproximatelyMultiplexZ 0 Body 0 [0%R] [] 4%nat = ([], Ok tt))
    by (apply ApproximatelyMultiplexZ_zero_leaf; lra).
  rewrite Hleaf in Hrun. injection Hrun as <-.
  split; [exact Hleaf |]. split; [exact HX | exact HY].
Defined.

(** ** Slices of the register *)

Lemma index_all_Ok {A} (a : list A) (idxs : list Z) :
  (forall i, In i idxs -> 0 <= i < Length a) ->
  exists l, index_all a idxs = Ok l /\ length l = length idxs.
Proof.
  induction idxs as [| i rest IH]; intros H.
  - exists []. split; reflexivity.
  - destruct (index_lt a i) as [x Hx]; [apply H; left; reflexivity |].
    destruct IH as [l [Hl Hlen]]; [intros j Hj; apply H; right; exact Hj |].
    exists (x :: l). simpl. rewrite Hx. simpl. rewrite Hl. simpl.
    split; [reflexivity | lia].
Qed.

Lemma slice_suffix {A} (register : list A) (s : Z) :
  0 <= s <= Length register ->
  exists control,
    slice register (range3 s 1 (Length register - 1)) = Ok control /\
    Length control = Length register - s.
Proof.
  intros Hs. unfold slice. rewrite range_items_unit_step. simpl.
  destruct (index_all_Ok register
    (map (fun i : nat => s + Z.of_nat i)
       (seq 0 (Z.to_nat (Length register - 1 - s + 1))))) as [l [Hl Hlen]].
  - intros i Hi. apply in_map_iff in Hi. destruct Hi as [j [<- Hj]].
    apply in_seq in Hj. lia.
  - exists l. split; [exact Hl |]. unfold Length at 1.
    rewrite Hlen, length_map, length_seq. lia.
Qed.

Lemma IsRangeEmpty_unit_step (a b : Z) :
  IsRangeEmpty (range3 a 1 b) = Ok (b <? a).
Proof.
  unfold IsRangeEmpty. rewrite range_items_unit_step. simpl.
  destruct (Z.ltb_spec b a).
  - replace (Z.to_nat (b - a + 1)) with 0%nat by lia. reflexivity.
  - replace (Z.to_nat (b - a + 1)) with (S (Z.to_nat (b - a))) by lia.
    reflexivity.
Qed.

(** The range of the recursive call of [ApproximatelyUnprepareArbitraryState]
    has one element less than the one it comes from. *)
Lemma newControl_smaller (a b : Z) :
  a <= b ->
  (range_size (range3 (a + 1) 1 b) < range_size (range3 a 1 b))%nat.
Proof.
  intros H. unfold range_size, range3. simpl. rewrite !Z.div_1_r.
  destruct (Z.leb_spec a b); [| lia].
  destruct (Z.leb_spec (a + 1) b); lia.
Qed.

(** ** [ApproximatelyUnprepareArbitraryState] *)

Lemma ApproximatelyUnprepareArbitraryState_eq (fuel : nat) (f : Functor)
    (tolerance : R) (coefficients : list ComplexPolar) (rngControl : Range)
    (idxTarget : Z) (register : list Qubit) :
  ApproximatelyUnprepareArbitraryState fuel f tolerance coefficients rngControl
    idxTarget register =
  let multiplex angles pauli :=
    (if AnyOutsideToleranceD tolerance angles then
       control <- liftR (slice register rngControl) ;;
       target <- liftR (index register idxTarget) ;;
       ApproximatelyMultiplexPauli fuel f tolerance angles pauli control target
     else ret tt)%op in
  (cs <- liftR (StatePreparationSBMComputeCoefficients coefficients) ;;
   let '(disentanglingY, disentanglingZ, newCoefficients) := cs in
   seqF f
     (multiplex disentanglingZ PauliZ)
     (seqF f
        (multiplex disentanglingY PauliY)
        (empty <- liftR (IsRangeEmpty rngControl) ;;
         if (empty : bool) then
           c <- liftR (index newCoefficients 0) ;;
           let arg := Argument c in
           if decide (AbsD arg > tolerance)%R then
             target <- liftR (index register idxTarget) ;;
             Intrinsic.Exp f [PauliI] (-1.0 * arg)%R [target]
           else ret tt
         else if AnyOutsideToleranceCP tolerance newCoefficients then
           match fuel with
           | O => throw OutOfFuel
           | S fuel' =>
               ApproximatelyUnprepareArbitraryState fuel' f tolerance
                 newCoefficients
                 (range3 (RangeStart rngControl + 1) (RangeStep rngControl)
                    (RangeEnd rngControl))
                 (RangeStart rngControl) register
           end
         else ret tt)))%op.
Proof. destruct fuel; reflexivity. Qed.

(** One level of the recursion, given that the recursive call succeeds. *)
Lemma ApproximatelyUnprepareArbitraryState_level (f : Functor) (tolerance : R)
    (register : list Qubit) (fuel : nat) (coefficients : list ComplexPolar)
    (s : Z) :
  1 <= s <= Length register ->
  Length coefficients = 2 * 2 ^ (Length register - s) ->
  (Z.to_nat (Length register - s) <= fuel)%nat ->
  (forall newCoefficients,
     s < Length register ->
     Length newCoefficients = 2 ^ (Length register - s) ->
     outcome
       match fuel with
       | O => throw OutOfFuel
       | S fuel' =>
           ApproximatelyUnprepareArbitraryState fuel' f tolerance
             newCoefficients (range3 (s + 1) 1 (Length register - 1)) s register
       end = Ok tt) ->
  outcome (ApproximatelyUnprepareArbitraryState fuel f tolerance coefficients
             (range3 s 1 (Length register - 1)) (s - 1) register) = Ok tt.
Proof.
  intros Hs Hlen Hfuel Hrec.
  pose proof (pow2_pos (Length register - s)) as Hpos.
  rewrite ApproximatelyUnprepareArbitraryState_eq. cbv zeta.
  destruct (StatePreparationSBMComputeCoefficients_lengths coefficients
              (Z.to_nat (2 ^ (Length register - s))))
    as [dY [dZ [nc [Hcs [HY [HZ Hnc]]]]]].
  { unfold Length in Hlen at 1. lia. }
  rewrite Hcs, bind_liftR_Ok.
  destruct (slice_suffix register s) as [control [Hctl HctlLen]]; [lia |].
  destruct (index_lt register (s - 1)) as [target Htgt]; [lia |].
  assert (Hmul : forall angles pauli,
    pauli <> PauliI ->
    length angles = Z.to_nat (2 ^ (Length register - s)) ->
    outcome
      (if AnyOutsideToleranceD tolerance angles then
         control <- liftR (slice register (range3 s 1 (Length register - 1))) ;;
         target <- liftR (index register (s - 1)) ;;
         ApproximatelyMultiplexPauli fuel f tolerance angles pauli control target
       else ret tt)%op = Ok tt).
  { intros angles pauli Hp Ha.
    destruct (AnyOutsideToleranceD tolerance angles); [| reflexivity].
    rewrite Hctl, bind_liftR_Ok, Htgt, bind_liftR_Ok.
    apply ApproximatelyMultiplexPauli_succeeds.
    - exact Hp.
    - unfold Length in HctlLen at 1. lia.
    - unfold Length at 1. rewrite Ha, HctlLen. lia. }
  apply outcome_seqF; [apply Hmul; [discriminate | exact HZ] |].
  apply outcome_seqF; [apply Hmul; [discriminate | exact HY] |].
  rewrite IsRangeEmpty_unit_step, bind_liftR_Ok.
  destruct (Z.ltb_spec (Length register - 1) s) as [Hempty | Hfull].
  - replace (Length register - s) with 0 in Hnc by lia.
    change (Z.to_nat (2 ^ 0)) with 1%nat in Hnc.
    destruct (index_lt nc 0) as [c Hc]; [unfold Length; lia |].
    rewrite Hc, bind_liftR_Ok. cbv zeta. case_decide; [| reflexivity].
    rewrite Htgt, bind_liftR_Ok. reflexivity.
  - destruct (AnyOutsideToleranceCP tolerance nc); [| reflexivity].
    apply Hrec; [lia |]. unfold Length at 1. rewrite Hnc. lia.
Qed.

Lemma ApproximatelyUnprepareArbitraryState_succeeds (f : Functor)
    (tolerance : R) (register : list Qubit) :
  forall (fuel : nat) (coefficients : list ComplexPolar) (s : Z),
    1 <= s <= Length register ->
    Length coefficients = 2 * 2 ^ (Length register - s) ->
    (Z.to_nat (Length register - s) <= fuel)%nat ->
    outcome (ApproximatelyUnprepareArbitraryState fuel f tolerance coefficients
               (range3 s 1 (Length register - 1)) (s - 1) register) = Ok tt.
Proof.
  induction fuel as [| fuel IH]; intros coefficients s Hs Hlen Hfuel;
    apply ApproximatelyUnprepareArbitraryState_level; auto;
    intros nc Hlt Hnc; [lia |].
  replace s with (s + 1 - 1) at 2 by lia.
  apply IH; [lia | | lia].
  rewrite Hnc.
  replace (Length register - s) with (Length register - (s + 1) + 1) by lia.
  rewrite Z.pow_add_r by lia. lia.
Qed.

(** ** The entry points *)

Lemma ApproximatelyPreparePureStateCP_succeeds (fuel : nat) (f : Functor)
    (tolerance : R) (coefficients : list ComplexPolar) (qubits : list Qubit) :
  qubits <> [] ->
  Length coefficients <= 2 ^ Length qubits ->
  (length qubits <= fuel)%nat ->
  outcome (ApproximatelyPreparePureStateCP fuel f tolerance coefficients qubits)
  = Ok tt.
Proof.
  intros Hne Hlen Hfuel. unfold ApproximatelyPreparePureStateCP.
  assert (Hn : 1 <= Length qubits).
  { destruct qubits; [contradiction |]. unfold Length. simpl. lia. }
  destruct (Padded_pow2 (MkComplexPolar 0.0 0.0) _ coefficients
              (Length_nonneg qubits) Hlen) as [padded [Hpad HpadLen]].
  rewrite Hpad, bind_liftR_Ok.
  replace (if 1 <? Length qubits then range 1 (Length qubits - 1) else range 1 0)
    with (range3 1 1 (Length qubits - 1)).
  2:{ destruct (Z.ltb_spec 1 (Length qubits)); [reflexivity |].
      replace (Length qubits) with 1 by lia. reflexivity. }
  apply (ApproximatelyUnprepareArbitraryState_succeeds (inv f) tolerance qubits
           fuel padded 1).
  - lia.
  - rewrite HpadLen.
    replace (Length qubits) with (Length qubits - 1 + 1) at 1 by lia.
    rewrite Z.pow_add_r by lia. lia.
  - unfold Length. lia.
Qed.

Lemma RealAsComplexPolar_1 : RealAsComplexPolar 1 = MkComplexPolar 1 0.
Proof.
  unfold RealAsComplexPolar. rewrite Rabs_R1. case_decide; [reflexivity | lra].
Qed.

Lemma RealAsComplexPolar_0 : RealAsComplexPolar 0 = MkComplexPolar 0 0.
Proof.
  unfold RealAsComplexPolar. rewrite Rabs_R0. case_decide; [reflexivity | lra].
Qed.

Lemma ArcTan2_0_1 : ArcTan2 0 1 = 0%R.
Proof.
  unfold ArcTan2. case_decide; [| lra].
  replace (0 / 1)%R with 0%R by lra. apply atan_0.
Qed.

Lemma ApproximatelyMultiplexZ_small_leaf (fuel : nat) (f : Functor)
    (tolerance c : R) (target : Qubit) :
  (Rabs c <= tolerance)%R ->
  ApproximatelyMultiplexZ fuel f tolerance [c] [] target = ([], Ok tt).
Proof.
  intros H. rewrite (ApproximatelyMultiplexZ_leaf _ _ _ _ c) by reflexivity.
  unfold AbsD. case_decide; [lra | reflexivity].
Qed.

Lemma index_head {A} (x : A) (a : list A) : index (x :: a) 0 = Ok x.
Proof. reflexivity. Qed.

Lemma PreparePureStateD_basis_state_run (fuel : nat) (q : Qubit) :
  PreparePureStateD fuel Body [1; 0]%R [q] =
  ([GateAdjS q; GateH q; GateH q; GateS q], Ok tt).
Proof.
  unfold PreparePureStateD, ApproximatelyPreparePureStateCP.
  cbn [map]. rewrite RealAsComplexPolar_1, RealAsComplexPolar_0.
  change (Padded _ _ _) with (Ok [MkComplexPolar 1 0; MkComplexPolar 0 0]).
  rewrite bind_liftR_Ok. change (1 <? Length [q]) with false. cbv iota.
  rewrite ApproximatelyUnprepareArbitraryState_eq. cbv zeta.
  change (StatePreparationSBMComputeCoefficients _) with
    (Ok ([(0.5 * (2.0 * ArcTan2 0 1))%R], [(0.5 * (0 - 0))%R],
         [MkComplexPolar (Sqrt (1 * 1 + 0 * 0)) (0.5 * (0 + 0))])).
  rewrite bind_liftR_Ok.
  rewrite !AnyOutsideToleranceD_nonpositive by (try lra; discriminate).
  change (slice [q] (range 1 0)) with (@Ok (list Qubit) []).
  change (index [q] 0) with (Ok q).
  change (IsRangeEmpty (range 1 0)) with (Ok true).
  rewrite !bind_liftR_Ok.
  rewrite index_head, bind_liftR_Ok. cbn [Argument].
  assert (Hzero : forall x : R, x = 0%R -> (Rabs x <= 0.0)%R)
    by (intros x ->; rewrite Rabs_R0; lra).
  rewrite ApproximatelyMultiplexPauli_Z.
  rewrite ApproximatelyMultiplexZ_small_leaf by (apply Hzero; lra).
  rewrite (ApproximatelyMultiplexPauli_Y_run _ _ _ _ _ _ [])
    by (apply ApproximatelyMultiplexZ_small_leaf, Hzero;
        rewrite ArcTan2_0_1; lra).
  unfold AbsD. case_decide as Harg; [| reflexivity].
  pose proof (Hzero (0.5 * (0 + 0))%R). lra.
Qed.

(** C8, as amended. Preparing [[1, 0]] on a one-qubit register with
    [PreparePureStateD] emits no rotation and no phase gate; what it emits
    is the basis change of the Y-axis multiplexer around an empty body:
    [Adjoint S], [H], [H], [S] on the qubit. *)
Theorem PreparePureStateD_basis_state (fuel : nat) (q : Qubit) :
  PreparePureStateD fuel Body [1; 0]%R [q] =
  ([GateAdjS q; GateH q; GateH q; GateS q], Ok tt).
Proof. apply PreparePureStateD_basis_state_run. Qed.

(** C8, as stated, fails: the gate sequence is not empty. *)
Lemma PreparePureStateD_basis_state_not_empty :
  trace (PreparePureStateD 0 Body [1; 0]%R [0%nat]) =
    [GateAdjS 0%nat; GateH 0%nat; GateH 0%nat; GateS 0%nat] /\
  trace (PreparePureStateD 0 Body [1; 0]%R [0%nat]) <> [].
Proof.
  rewrite PreparePureStateD_basis_state_run. split; [reflexivity | discriminate].
Qed.

Lemma ApproximatelyPreparePureStateCP_too_long (fuel : nat) (f : Functor)
    (tolerance : R) (coefficients : list ComplexPolar) (qubits : list Qubit) :
  2 ^ Length qubits < Length coefficients ->
  exists msg,
    ApproximatelyPreparePureStateCP fuel f tolerance coefficients qubits =
    ([], Err (InvalidArgument msg)).
Proof.
  intros H. unfold ApproximatelyPreparePureStateCP.
  pose proof (pow2_pos (Length qubits) (Length_nonneg _)).
  destruct (Padded_too_long (- 2 ^ Length qubits) (MkComplexPolar 0.0 0.0)
              coefficients) as [msg Hmsg]; [lia |].
  exists msg. rewrite Hmsg. reflexivity.
Qed.

(** C6. With more than [2^n] coefficients for a register of [n] qubits,
    [ApproximatelyPreparePureStateCP] and [PreparePureStateD] fail with an
    invalid-argument failure, and no gate has been emitted when they do. *)
Theorem prepare_too_many_coefficients (fuel : nat) (tolerance : R)
    (coefficients : list ComplexPolar) (reals : list R) (qubits : list Qubit) :
  2 ^ Length qubits < Length coefficients ->
  2 ^ Length qubits < Length reals ->
  (exists msg,
     ApproximatelyPreparePureStateCP fuel Body tolerance coefficients qubits =
     ([], Err (InvalidArgument msg))) /\
  (exists msg,
     PreparePureStateD fuel Body reals qubits = ([], Err (InvalidArgument msg))).
Proof.
  intros Hc Hr. split.
  - apply ApproximatelyPreparePureStateCP_too_long, Hc.
  - unfold PreparePureStateD. apply ApproximatelyPreparePureStateCP_too_long.
    unfold Length at 2. rewrite length_map. exact Hr.
Qed.

Lemma prepare_too_many_coefficients_witness :
  (exists msg,
     ApproximatelyPreparePureStateCP 1 Body 0
       [MkComplexPolar 1 0; MkComplexPolar 1 0; MkComplexPolar 1 0] [0%nat] =
     ([], Err (InvalidArgument msg))) /\
  (exists msg,
     PreparePureStateD 1 Body [1; 1; 1]%R [0%nat] =
     ([], Err (InvalidArgument msg))).
Proof.
  apply (prepare_too_many_coefficients 1 0
           [MkComplexPolar 1 0; MkComplexPolar 1 0; MkComplexPolar 1 0]
           [1; 1; 1]%R [0%nat]); reflexivity.
Defined.

Lemma negative_tolerance_run (q : Qubit) :
  ApproximatelyPreparePureStateCP 0 Body (-1)
    [MkComplexPolar 1 0; MkComplexPolar 0 0] [q] =
  ([GateExp [PauliI] (- (-1.0 * (0.5 * (0 + 0)))) [q];
    GateAdjS q; GateH q;
    GateExp [PauliZ] (- (0.5 * (2.0 * ArcTan2 0 1))) [q];
    GateH q; GateS q;
    GateExp [PauliZ] (- (0.5 * (0 - 0))) [q]], Ok tt).
Proof.
  unfold ApproximatelyPreparePureStateCP.
  change (Padded _ _ _) with (Ok [MkComplexPolar 1 0; MkComplexPolar 0 0]).
  rewrite bind_liftR_Ok. change (1 <? Length [q]) with false. cbv iota.
  rewrite ApproximatelyUnprepareArbitraryState_eq. cbv zeta.
  change (StatePreparationSBMComputeCoefficients _) with
    (Ok ([(0.5 * (2.0 * ArcTan2 0 1))%R], [(0.5 * (0 - 0))%R],
         [MkComplexPolar (Sqrt (1 * 1 + 0 * 0)) (0.5 * (0 + 0))])).
  rewrite bind_liftR_Ok.
  rewrite !AnyOutsideToleranceD_nonpositive by (try lra; discriminate).
  change (slice [q] (range 1 0)) with (@Ok (list Qubit) []).
  change (index [q] 0) with (Ok q).
  change (IsRangeEmpty (range 1 0)) with (Ok true).
  rewrite !bind_liftR_Ok.
  rewrite index_head, bind_liftR_Ok. cbn [Argument].
  assert (Hneg : forall x : R, (AbsD x > -1)%R)
    by (intros x; unfold AbsD; pose proof (Rabs_pos x); lra).
  assert (Hleaf : forall c,
    ApproximatelyMultiplexZ 0 (inv Body) (-1) [c] [] q =
    ([GateExp [PauliZ] (- c) [q]], Ok tt)).
  { intros c. rewrite (ApproximatelyMultiplexZ_leaf _ _ _ _ c) by reflexivity.
    case_decide as Hc; [reflexivity | destruct Hc; apply Hneg]. }
  rewrite ApproximatelyMultiplexPauli_Z, Hleaf.
  rewrite (ApproximatelyMultiplexPauli_Y_run _ _ _ _ _ _ _ (Hleaf _)).
  case_decide as Hc; [| destruct Hc; apply Hneg].
  rewrite bind_liftR_Ok. reflexivity.
Qed.

(** C7, as amended. A negative tolerance is not rejected: every pruning test
    passes, and on a non-empty register with at most [2^n] coefficients
    [ApproximatelyPreparePureStateCP] returns normally. *)
Theorem negative_tolerance_not_rejected (fuel : nat) (tolerance : R)
    (coefficients : list ComplexPolar) (qubits : list Qubit) :
  (tolerance < 0)%R ->
  qubits <> [] ->
  Length coefficients <= 2 ^ Length qubits ->
  (length qubits <= fuel)%nat ->
  outcome (ApproximatelyPreparePureStateCP fuel Body tolerance coefficients
             qubits) = Ok tt /\
  (forall x : R, AbsD x > tolerance)%R.
Proof.
  intros Htol Hne Hlen Hfuel. split.
  - apply ApproximatelyPreparePureStateCP_succeeds; assumption.
  - intros x. unfold AbsD. pose proof (Rabs_pos x). lra.
Qed.

Lemma negative_tolerance_not_rejected_witness :
  outcome (ApproximatelyPreparePureStateCP 1 Body (-1)
             [MkComplexPolar 1 0; MkComplexPolar 0 0] [0%nat]) = Ok tt /\
  (forall x : R, AbsD x > -1)%R.
Proof.
  apply (negative_tolerance_not_rejected 1 (-1)
           [MkComplexPolar 1 0; MkComplexPolar 0 0] [0%nat]).
  - lra.
  - discriminate.
  - unfold Length. simpl. lia.
  - simpl. lia.
Defined.

(** C7, as stated, fails: with tolerance [-1] the call returns normally, and
    has emitted every gate of the circuit, none pruned. *)
Lemma negative_tolerance_accepted :
  (-1 < 0)%R /\
  ApproximatelyPreparePureStateCP 0 Body (-1)
    [MkComplexPolar 1 0; MkComplexPolar 0 0] [0%nat] =
  ([GateExp [PauliI] (- (-1.0 * (0.5 * (0 + 0)))) [0%nat];
    GateAdjS 0%nat; GateH 0%nat;
    GateExp [PauliZ] (- (0.5 * (2.0 * ArcTan2 0 1))) [0%nat];
    GateH 0%nat; GateS 0%nat;
    GateExp [PauliZ] (- (0.5 * (0 - 0))) [0%nat]], Ok tt).
Proof. split; [lra | apply negative_tolerance_run]. Qed.

(** ** Success of [ApproximatelyApplyDiagonalUnitary] on well-formed input *)

Lemma ApproximatelyApplyDiagonalUnitary_eq (fuel : nat) (f : Functor)
    (tolerance : R) (coefficients : list R) (qubits : list Qubit) :
  ApproximatelyApplyDiagonalUnitary fuel f tolerance coefficients qubits =
  ((if IsEmpty qubits then
      throw (InvalidArgument
        "operation ApplyDiagonalUnitary -- Number of qubits must be greater than 0.")
    else ret tt) ;;;
   coefficientsPadded <-
     liftR (Padded (- 2 ^ Length qubits) 0.0%R coefficients) ;;
   cs <- liftR (MultiplexZCoefficients coefficientsPadded) ;;
   let '(coefficients0, coefficients1) := cs in
   seqF f
     (t <- liftR (Tail qubits) ;;
      ApproximatelyMultiplexZ fuel f tolerance coefficients1 (Most qubits) t)
     (if Length coefficientsPadded =? 2 then
        c <- liftR (index coefficients0 0) ;;
        if decide (AbsD c > tolerance)%R then
          Intrinsic.Exp f [PauliI] (1.0 * c)%R qubits
        else ret tt
      else
        match fuel with
        | O => throw OutOfFuel
        | S fuel' =>
            ApproximatelyApplyDiagonalUnitary fuel' f tolerance coefficients0
              (Most qubits)
        end))%op.
Proof. destruct fuel; reflexivity. Qed.

Lemma IsEmpty_app_one {A} (a : list A) (x : A) : IsEmpty (a ++ [x]) = false.
Proof.
  unfold IsEmpty. rewrite Length_app_one. pose proof (Length_nonneg a).
  destruct (Z.eqb_spec (Length a + 1) 0); [lia | reflexivity].
Qed.

Lemma ApproximatelyApplyDiagonalUnitary_succeeds (f : Functor) (tolerance : R) :
  forall (fuel : nat) (qubits : list Qubit) (coefficients : list R),
    qubits <> [] ->
    (length qubits <= S fuel)%nat ->
    Length coefficients <= 2 ^ Length qubits ->
    outcome (ApproximatelyApplyDiagonalUnitary fuel f tolerance coefficients
               qubits) = Ok tt.
Proof.
  induction fuel as [| fuel IH]; intros qubits coefficients Hne Hfuel Hlen;
    destruct (snoc_case qubits) as [-> | [qs [q ->]]]; try contradiction;
    destruct (Padded_pow2 0.0%R _ coefficients (Length_nonneg _) Hlen)
      as [padded [Hpad HpadLen]];
    rewrite ApproximatelyApplyDiagonalUnitary_eq, IsEmpty_app_one;
    pose proof (Length_nonneg qs) as Hqs;
    pose proof (pow2_pos (Length qs) Hqs) as Hpos;
    rewrite bind_ret, Hpad, bind_liftR_Ok, MultiplexZCoefficients_closed,
      bind_liftR_Ok, Tail_app_one, bind_liftR_Ok, Most_app_one;
    rewrite pow2_Length_app_one in HpadLen;
    pose proof (half_Length _ _ HpadLen) as Hhalf;
    rewrite length_app in Hfuel; simpl in Hfuel;
    (apply outcome_seqF;
     [ apply ApproximatelyMultiplexZ_succeeds;
       [lia | unfold Length at 1; rewrite length_map, length_seq; lia] |]);
    rewrite HpadLen;
    (destruct (Z.eqb_spec (2 * 2 ^ Length qs) 2) as [Hbase | Hrec];
     [ destruct (index_lt (map (half_sum padded (length padded / 2))
                             (seq 0 (length padded / 2))) 0) as [c Hc];
       [ unfold Length; rewrite length_map, length_seq; lia
       | rewrite Hc, bind_liftR_Ok; case_decide; reflexivity ] |]).
  - assert (length qs = 0)%nat by lia. destruct qs; [| discriminate].
    exfalso. apply Hrec. reflexivity.
  - apply IH.
    + intros ->. apply Hrec. reflexivity.
    + lia.
    + unfold Length at 1. rewrite length_map, length_seq. lia.
Qed.

Lemma ApproximatelyPreparePureStateCP_empty_register (fuel : nat) (f : Functor)
    (tolerance : R) (coefficients : list ComplexPolar) :
  Length coefficients <= 2 ^ Length (@nil Qubit) ->
  outcome (ApproximatelyPreparePureStateCP fuel f tolerance coefficients [])
  = Err IndexOutOfRange.
Proof.
  intros H. change (2 ^ Length (@nil Qubit)) with 1 in H.
  unfold ApproximatelyPreparePureStateCP.
  destruct coefficients as [| c [| c' rest]];
    [| | unfold Length in H; simpl in H; lia];
    destruct fuel; reflexivity.
Qed.

(** C9. With as much fuel as the register has qubits no recursion bound is
    ever hit, on any register and any coefficient array of at most [2^n]
    entries: [ApproximatelyMultiplexZ], [ApproximatelyApplyDiagonalUnitary]
    (on a non-empty register) and the preparation (on a non-empty register)
    return normally. Their recursive calls are on [Most] of the register,
    which is shorter, or on a control range with one element less. *)
Theorem synthesis_terminates (fuel : nat) (f : Functor) (tolerance : R)
    (coefficients : list ComplexPolar) (angles : list R) (qubits : list Qubit)
    (target : Qubit) :
  (length qubits <= fuel)%nat ->
  Length coefficients <= 2 ^ Length qubits ->
  Length angles <= 2 ^ Length qubits ->
  outcome (ApproximatelyPreparePureStateCP fuel f tolerance coefficients qubits)
    <> Err OutOfFuel /\
  (qubits <> [] ->
   outcome (ApproximatelyPreparePureStateCP fuel f tolerance coefficients
              qubits) = Ok tt) /\
  outcome (ApproximatelyMultiplexZ fuel f tolerance angles qubits target)
    = Ok tt /\
  (qubits <> [] ->
   outcome (ApproximatelyApplyDiagonalUnitary fuel f tolerance angles qubits)
     = Ok tt) /\
  (qubits <> [] -> (length (Most qubits) < length qubits)%nat) /\
  (forall a b : Z,
     a <= b ->
     (range_size (range3 (a + 1) 1 b) < range_size (range3 a 1 b))%nat).
Proof.
  intros Hfuel Hc Ha. repeat split.
  - destruct qubits as [| q qs].
    + rewrite ApproximatelyPreparePureStateCP_empty_register by exact Hc.
      discriminate.
    + rewrite ApproximatelyPreparePureStateCP_succeeds; auto; discriminate.
  - intros Hne. apply ApproximatelyPreparePureStateCP_succeeds; auto.
  - apply ApproximatelyMultiplexZ_succeeds; auto.
  - intros Hne. apply ApproximatelyApplyDiagonalUnitary_succeeds; auto.
  - apply Most_shorter.
  - apply newControl_smaller.
Qed.

Lemma synthesis_terminates_witness :
  let coefficients := [MkComplexPolar 1 0; MkComplexPolar 0 0;
                       MkComplexPolar 1 0] in
  let qubits := [0%nat; 1%nat] in
  outcome (ApproximatelyPreparePureStateCP 2 Body 0 coefficients qubits)
    <> Err OutOfFuel /\
  (qubits <> [] ->
   outcome (ApproximatelyPreparePureStateCP 2 Body 0 coefficients qubits)
     = Ok tt) /\
  outcome (ApproximatelyMultiplexZ 2 Body 0 [1; 2; 3]%R qubits 5%nat) = Ok tt /\
  (qubits <> [] ->
   outcome (ApproximatelyApplyDiagonalUnitary 2 Body 0 [1; 2; 3]%R qubits)
     = Ok tt) /\
  (qubits <> [] -> (length (Most qubits) < length qubits)%nat) /\
  (forall a b : Z,
     a <= b ->
     (range_size (range3 (a + 1) 1 b) < range_size (range3 a 1 b))%nat).
Proof.
  apply (synthesis_terminates 2 Body 0
           [MkComplexPolar 1 0; MkComplexPolar 0 0; MkComplexPolar 1 0]
           [1; 2; 3]%R [0%nat; 1%nat] 5%nat).
  - simpl. lia.
  - unfold Length. simpl. lia.
  - unfold Length. simpl. lia.
Defined.

(** ** The adjoint specialisations invert the body *)

Lemma gate_adjoint_involutive (g : Gate) : gate_adjoint (gate_adjoint g) = g.
Proof. destruct g; simpl; try reflexivity. rewrite Ropp_involutive. reflexivity. Qed.

Lemma trace_adjoint_app (a b : list Gate) :
  trace_adjoint (a ++ b) = trace_adjoint b ++ trace_adjoint a.
Proof. unfold trace_adjoint. rewrite map_app, rev_app_distr. reflexivity. Qed.

Lemma trace_adjoint_involutive (a : list Gate) :
  trace_adjoint (trace_adjoint a) = a.
Proof.
  unfold trace_adjoint. rewrite map_rev, rev_involutive, map_map.
  rewrite <- (map_id a) at 2. apply map_ext, gate_adjoint_involutive.
Qed.

Lemma bind_Ok_inv {A B} (m : Op A) (k : A -> Op B) tr b :
  bind m k = (tr, Ok b) ->
  exists tr1 a tr2, m = (tr1, Ok a) /\ k a = (tr2, Ok b) /\ tr = tr1 ++ tr2.
Proof.
  destruct m as [tr1 [a | e]]; simpl; [| discriminate].
  destruct (k a) as [tr2 r] eqn:Hk. intros [= <- ->]. eauto 6.
Qed.

Lemma inverts_ret : inverts (ret tt) (ret tt).
Proof. intros tr [= <-]. reflexivity. Qed.

Lemma inverts_throw (e : Failure) (m' : Op unit) : inverts (throw e) m'.
Proof. intros tr [=]. Qed.

Lemma inverts_pure {A} (r : result A) (k k' : A -> Op unit) :
  (forall a, inverts (k a) (k' a)) ->
  inverts (bind (liftR r) k) (bind (liftR r) k').
Proof.
  intros H tr. destruct r as [a | e]; [| discriminate].
  rewrite !bind_liftR_Ok. apply H.
Qed.

Lemma inverts_seqF (f : Functor) (a a' b b' : Op unit) :
  inverts a a' -> inverts b b' -> inverts (seqF f a b) (seqF (inv f) a' b').
Proof.
  intros Ha Hb tr H. destruct f; simpl in *;
    apply bind_Ok_inv in H; destruct H as [tr1 [[] [tr2 [H1 [H2 ->]]]]];
    rewrite trace_adjoint_app; eapply bind_run; eauto.
Qed.

Lemma inverts_within (W : Functor -> Op unit) (B B' : Op unit) :
  inverts (W Body) (W Adjoint) -> inverts B B' ->
  inverts (within W B) (within W B').
Proof.
  intros HW HB tr H. unfold within in *.
  apply bind_Ok_inv in H. destruct H as [w [[] [tr' [H1 [H ->]]]]].
  apply bind_Ok_inv in H. destruct H as [t [[] [w' [H2 [H3 ->]]]]].
  pose proof (HW _ H1) as H4. rewrite H3 in H4. injection H4 as ->.
  rewrite !trace_adjoint_app, trace_adjoint_involutive, <- app_assoc.
  eapply bind_run; [exact H1 |]. eapply bind_run; [apply HB, H2 | exact H3].
Qed.

Lemma inverts_Exp (f : Functor) paulis theta qubits :
  inverts (Intrinsic.Exp f paulis theta qubits)
    (Intrinsic.Exp (inv f) paulis theta qubits).
Proof.
  intros tr [= <-]. destruct f; simpl; [reflexivity |].
  unfold trace_adjoint. simpl. rewrite Ropp_involutive. reflexivity.
Qed.

Lemma ApproximatelyMultiplexZ_inverts (f : Functor) (tolerance : R)
    (target : Qubit) :
  forall (fuel : nat) (coefficients : list R) (control : list Qubit),
    inverts
      (ApproximatelyMultiplexZ fuel f tolerance coefficients control target)
      (ApproximatelyMultiplexZ fuel (inv f) tolerance coefficients control
         target).
Proof.
  induction fuel as [| fuel IH]; intros coefficients control;
    rewrite !ApproximatelyMultiplexZ_eq;
    apply inverts_pure; intros padded;
    (destruct (Length padded =? 1);
     [ apply inverts_pure; intros c; case_decide;
       [apply inverts_Exp | apply inverts_ret]
     | apply inverts_pure; intros [c0 c1]; apply inverts_seqF;
       [| destruct (AnyOutsideToleranceD tolerance c1);
          [apply inverts_within | apply inverts_ret] ] ]);
    try apply inverts_throw; try apply IH;
    apply inverts_pure; intros t tr [= <-]; reflexivity.
Qed.

Lemma ApproximatelyApplyDiagonalUnitary_inverts (f : Functor) (tolerance : R) :
  forall (fuel : nat) (coefficients : list R) (qubits : list Qubit),
    inverts
      (ApproximatelyApplyDiagonalUnitary fuel f tolerance coefficients qubits)
      (ApproximatelyApplyDiagonalUnitary fuel (inv f) tolerance coefficients
         qubits).
Proof.
  induction fuel as [| fuel IH]; intros coefficients qubits;
    rewrite !ApproximatelyApplyDiagonalUnitary_eq;
    (destruct (IsEmpty qubits); [intros tr [=] |]);
    rewrite !bind_ret;
    apply inverts_pure; intros padded;
    apply inverts_pure; intros [c0 c1];
    (apply inverts_seqF;
     [ apply inverts_pure; intros t; apply ApproximatelyMultiplexZ_inverts
     | destruct (Length padded =? 2);
       [ apply inverts_pure; intros c; case_decide;
         [apply inverts_Exp | apply inverts_ret] |] ]);
    [apply inverts_throw | apply IH].
Qed.

Lemma inverts_H (target : Qubit) :
  inverts (Intrinsic.H Body target) (Intrinsic.H Adjoint target).
Proof. intros tr [= <-]. reflexivity. Qed.

Lemma inverts_AdjointS (target : Qubit) :
  inverts (Intrinsic.S (inv Body) target) (Intrinsic.S (inv Adjoint) target).
Proof. intros tr [= <-]. reflexivity. Qed.

Lemma ApproximatelyMultiplexPauli_inverts (fuel : nat) (f : Functor)
    (tolerance : R) (coefficients : list R) (pauli : Pauli)
    (control : list Qubit) (target : Qubit) :
  inverts
    (ApproximatelyMultiplexPauli fuel f tolerance coefficients pauli control
       target)
    (ApproximatelyMultiplexPauli fuel (inv f) tolerance coefficients pauli
       control target).
Proof.
  pose proof (ApproximatelyMultiplexZ_inverts f tolerance target fuel
                coefficients control) as HZ.
  pose proof (inverts_H target) as HH.
  pose proof (inverts_AdjointS target) as HS.
  destruct pauli; unfold ApproximatelyMultiplexPauli.
  - apply ApproximatelyApplyDiagonalUnitary_inverts.
  - apply inverts_within; assumption.
  - apply inverts_within; [assumption |]. apply inverts_within; assumption.
  - exact HZ.
Qed.

Lemma ApproximatelyUnprepareArbitraryState_inverts (f : Functor)
    (tolerance : R) (register : list Qubit) :
  forall (fuel : nat) (coefficients : list ComplexPolar) (rngControl : Range)
         (idxTarget : Z),
    inverts
      (ApproximatelyUnprepareArbitraryState fuel f tolerance coefficients
         rngControl idxTarget register)
      (ApproximatelyUnprepareArbitraryState fuel (inv f) tolerance coefficients
         rngControl idxTarget register).
Proof.
  assert (Hmul : forall fuel angles pauli rngControl idxTarget,
    inverts
      (if AnyOutsideToleranceD tolerance angles then
         control <- liftR (slice register rngControl) ;;
         target <- liftR (index register idxTarget) ;;
         ApproximatelyMultiplexPauli fuel f tolerance angles pauli control target
       else ret tt)%op
      (if AnyOutsideToleranceD tolerance angles then
         control <- liftR (slice register rngControl) ;;
         target <- liftR (index register idxTarget) ;;
         ApproximatelyMultiplexPauli fuel (inv f) tolerance angles pauli control
           target
       else ret tt)%op).
  { intros fuel angles pauli rngControl idxTarget.
    destruct (AnyOutsideToleranceD tolerance angles); [| apply inverts_ret].
    apply inverts_pure; intros control. apply inverts_pure; intros target.
    apply ApproximatelyMultiplexPauli_inverts. }
  induction fuel as [| fuel IH]; intros coefficients rngControl idxTarget;
    rewrite !ApproximatelyUnprepareArbitraryState_eq; cbv zeta;
    apply inverts_pure; intros [[dY dZ] nc];
    (apply inverts_seqF; [apply Hmul |]);
    (apply inverts_seqF; [apply Hmul |]);
    apply inverts_pure; intros [|];
    try (apply inverts_pure; intros c; cbv zeta; case_decide;
         [ apply inverts_pure; intros target; apply inverts_Exp
         | apply inverts_ret ]);
    (destruct (AnyOutsideToleranceCP tolerance nc); [| apply inverts_ret]);
    [apply inverts_throw | apply IH].
Qed.

(** The adjoint specialisation of the preparation emits the gates of its
    body in reverse order, each one replaced by its adjoint. *)
Lemma ApproximatelyPreparePureStateCP_inverts (fuel : nat) (f : Functor)
    (tolerance : R) (coefficients : list ComplexPolar) (qubits : list Qubit) :
  inverts
    (ApproximatelyPreparePureStateCP fuel f tolerance coefficients qubits)
    (ApproximatelyPreparePureStateCP fuel (inv f) tolerance coefficients qubits).
Proof.
  unfold ApproximatelyPreparePureStateCP.
  apply inverts_pure; intros padded.
  apply ApproximatelyUnprepareArbitraryState_inverts.
Qed.

Lemma for_items_app {St} (l1 l2 : list Z) (body : Z -> St -> result St)
    (s : St) :
  for_items (l1 ++ l2) body s =
  (s' <- for_items l1 body s ;; for_items l2 body s')%res.
Proof.
  revert s. induction l1 as [| i l1 IH]; intros s; simpl; [reflexivity |].
  destruct (body i s); simpl; [apply IH | reflexivity].
Qed.

Lemma StatePreparationSBMComputeCoefficients_loop
    (coefficients : list ComplexPolar) :
  StatePreparationSBMComputeCoefficients coefficients =
  (arrays <-
     for_range (range3 0 2 (Length coefficients - 1)) (SBM_body coefficients)
       (SBM_arrays coefficients (length coefficients / 2) 0) ;;
   let '(disentanglingZ, disentanglingY, newCoefficients) := arrays in
   Ok (disentanglingY, disentanglingZ, newCoefficients))%res.
Proof.
  unfold StatePreparationSBMComputeCoefficients, SBM_arrays, ConstantArray.
  rewrite Length_quot_2, Nat2Z.id, Nat.sub_0_r. reflexivity.
Qed.

Lemma SBM_body_step (coefficients : list ComplexPolar) (p j : nat) :
  (2 * j + 1 < length coefficients)%nat -> (j < p)%nat ->
  SBM_body coefficients (2 * Z.of_nat j) (SBM_arrays coefficients p j) =
  Ok (SBM_arrays coefficients p (S j)).
Proof.
  intros Hj Hp. unfold SBM_body, SBM_arrays.
  replace (2 * Z.of_nat j ÷ 2) with (Z.of_nat j)
    by (rewrite Z.mul_comm, Z.quot_mul; lia).
  replace (2 * Z.of_nat j + 1) with (Z.of_nat (2 * j + 1)) by lia.
  replace (2 * Z.of_nat j) with (Z.of_nat (2 * j)) by lia.
  rewrite !(index_nth (MkComplexPolar 0 0)) by lia. cbn [rbind].
  assert (Hl : forall A (h : nat -> A) d,
            (j < length (map h (seq 0 j) ++ repeat d (p - j)))%nat)
    by (intros; rewrite length_app, length_map, length_seq, repeat_length; lia).
  unfold BlochSphereCoordinates at 1. cbv zeta.
  rewrite update_Ok by apply Hl. cbn [rbind].
  rewrite update_Ok by apply Hl. cbn [rbind].
  rewrite update_Ok by apply Hl. cbn [rbind].
  rewrite !fill_next by (try lia; reflexivity). reflexivity.
Qed.

Lemma SBM_body_prefix (coefficients : list ComplexPolar) (p m : nat) :
  (2 * m <= length coefficients)%nat -> (m <= p)%nat ->
  for_items (map (fun i : nat => 2 * Z.of_nat i) (seq 0 m))
    (SBM_body coefficients) (SBM_arrays coefficients p 0) =
  Ok (SBM_arrays coefficients p m).
Proof.
  intros Hm Hp.
  destruct (for_items_invariant
    (fun j s => s = SBM_arrays coefficients p j)
    (fun i : nat => 2 * Z.of_nat i) (SBM_body coefficients) m)
    with (k := m) (j := 0%nat) (s := SBM_arrays coefficients p 0)
    as [s' [Hrun ->]]; auto.
  intros j s Hj ->. eexists. split; [| reflexivity].
  apply SBM_body_step; lia.
Qed.

Lemma StatePreparationSBMComputeCoefficients_closed
    (coefficients : list ComplexPolar) (m : nat) :
  length coefficients = (2 * m)%nat ->
  StatePreparationSBMComputeCoefficients coefficients =
  Ok (map (fun i => (0.5 * (pair_coordinates coefficients i).2)%R) (seq 0 m),
      map (fun i => (0.5 * (pair_coordinates coefficients i).1.2)%R) (seq 0 m),
      map (fun i => (pair_coordinates coefficients i).1.1) (seq 0 m)).
Proof.
  intros Hlen. rewrite StatePreparationSBMComputeCoefficients_loop.
  unfold for_range. rewrite range_items_even by apply Length_nonneg.
  assert (Hhalf : (length coefficients / 2 = m)%nat)
    by (rewrite Hlen, Nat.mul_comm, Nat.div_mul; lia).
  replace (Z.to_nat ((Length coefficients + 1) / 2)) with m.
  2:{ unfold Length. rewrite Hlen.
      replace (Z.of_nat (2 * m) + 1) with (1 + Z.of_nat m * 2) by lia.
      rewrite Z.div_add by lia. change (1 / 2) with 0. lia. }
  cbn [rbind]. rewrite Hhalf, SBM_body_prefix by lia.
  unfold SBM_arrays. rewrite Nat.sub_diag. cbn [rbind repeat].
  rewrite !app_nil_r. reflexivity.
Qed.

Lemma StatePreparationSBMComputeCoefficients_odd
    (coefficients : list ComplexPolar) (m : nat) :
  length coefficients = (2 * m + 1)%nat ->
  StatePreparationSBMComputeCoefficients coefficients = Err IndexOutOfRange.
Proof.
  intros Hlen. rewrite StatePreparationSBMComputeCoefficients_loop.
  unfold for_range. rewrite range_items_even by apply Length_nonneg.
  assert (Hhalf : (length coefficients / 2 = m)%nat).
  { rewrite Hlen. replace (2 * m + 1)%nat with (1 + m * 2)%nat by lia.
    rewrite Nat.div_add by lia. reflexivity. }
  replace (Z.to_nat ((Length coefficients + 1) / 2)) with (S m).
  2:{ unfold Length. rewrite Hlen.
      replace (Z.of_nat (2 * m + 1) + 1) with ((Z.of_nat m + 1) * 2) by lia.
      rewrite Z.div_mul by lia. lia. }
  cbn [rbind]. rewrite seq_S, map_app, for_items_app, Hhalf.
  rewrite SBM_body_prefix by lia. cbn [rbind map for_items Nat.add].
  unfold SBM_body, SBM_arrays.
  replace (2 * Z.of_nat m) with (Z.of_nat (2 * m)) by lia.
  rewrite (index_nth (MkComplexPolar 0 0)) by lia. cbn [rbind].
  unfold index. destruct (Z.ltb_spec (Z.of_nat (2 * m) + 1) 0); [reflexivity |].
  rewrite (lookup_ge_None_2 coefficients) by lia. reflexivity.
Qed.

Lemma pair_coordinates_shift (a b : ComplexPolar) (rest : list ComplexPolar)
    (i : nat) :
  pair_coordinates (a :: b :: rest) (S i) = pair_coordinates rest i.
Proof.
  unfold pair_coordinates.
  replace (2 * S i)%nat with (S (S (2 * i))) by lia.
  replace (S (S (2 * i)) + 1)%nat with (S (S (2 * i + 1))) by lia.
  reflexivity.
Qed.

Lemma merged_cons (a b : ComplexPolar) (rest : list ComplexPolar) (m : nat) :
  map (fun i => (pair_coordinates (a :: b :: rest) i).1.1) (seq 0 (S m)) =
  (BlochSphereCoordinates a b).1.1 ::
  map (fun i => (pair_coordinates rest i).1.1) (seq 0 m).
Proof.
  cbn [seq map]. f_equal. rewrite <- seq_shift, map_map.
  apply map_ext. intros i. rewrite pair_coordinates_shift. reflexivity.
Qed.

Lemma norm2_merged (m : nat) :
  forall coefficients : list ComplexPolar,
    length coefficients = (2 * m)%nat ->
    norm2 (map (fun i => (pair_coordinates coefficients i).1.1) (seq 0 m)) =
    norm2 coefficients.
Proof.
  induction m as [| m IH]; intros coefficients Hlen.
  - destruct coefficients; [reflexivity | discriminate].
  - destruct coefficients as [| a [| b rest]]; simpl in Hlen; try lia.
    rewrite merged_cons. cbn [norm2]. rewrite IH by lia.
    unfold BlochSphereCoordinates, AbsComplexPolar, Sqrt. cbn [fst Magnitude].
    rewrite sqrt_sqrt by nra. ring.
Qed.

Lemma ArcTan2_quadrant (y x : R) :
  (0 <= x)%R -> (0 <= y)%R ->
  (sqrt (x * x + y * y) * cos (ArcTan2 y x) = x)%R /\
  (sqrt (x * x + y * y) * sin (ArcTan2 y x) = y)%R.
Proof.
  intros Hx Hy. unfold ArcTan2. case_decide as Hpos.
  - assert (Hs : (0 < sqrt (1 + (y / x)²))%R)
      by (apply sqrt_lt_R0; unfold Rsqr; nra).
    assert (Hr : sqrt (x * x + y * y) = (x * sqrt (1 + (y / x)²))%R).
    { replace (x * x + y * y)%R with ((x * x) * (1 + (y / x)²))%R
        by (unfold Rsqr; field; lra).
      rewrite sqrt_mult by (unfold Rsqr; nra).
      rewrite sqrt_square by lra. reflexivity. }
    rewrite Hr, cos_atan, sin_atan. split; field; lra.
  - assert (x = 0%R) by lra. subst x.
    case_decide as Hneg; [lra |].
    replace (0 * 0 + y * y)%R with (y * y)%R by ring.
    rewrite sqrt_square by lra.
    case_decide as Hy'.
    + rewrite cos_PI2, sin_PI2. split; ring.
    + assert (y = 0%R) by lra. subst y.
      case_decide; [lra |]. rewrite cos_0, sin_0. split; ring.
Qed.

Lemma trace_bind_pure {A B} (r : result A) (k : A -> Op B) :
  trace (bind (liftR r) k) =
  match r with Ok a => trace (k a) | Err _ => [] end.
Proof. destruct r as [a | e]; [rewrite bind_liftR_Ok |]; reflexivity. Qed.

Lemma trace_bind_cases {A B} (m : Op A) (k : A -> Op B) :
  trace (bind m k) = trace m \/ exists a, trace (bind m k) = trace m ++ trace (k a).
Proof.
  destruct m as [tr [a | e]]; simpl; [| left; reflexivity].
  right. exists a. destruct (k a). reflexivity.
Qed.

Lemma Forall_trace_bind {A B} (P : Gate -> Prop) (m : Op A) (k : A -> Op B) :
  Forall P (trace m) -> (forall a, Forall P (trace (k a))) ->
  Forall P (trace (bind m k)).
Proof.
  intros Hm Hk. destruct (trace_bind_cases m k) as [-> | [a ->]]; [exact Hm |].
  apply Forall_app. split; [exact Hm | apply Hk].
Qed.

Lemma Forall_trace_pure {A B} (P : Gate -> Prop) (r : result A) (k : A -> Op B) :
  (forall a, Forall P (trace (k a))) -> Forall P (trace (bind (liftR r) k)).
Proof. intros Hk. apply Forall_trace_bind; [constructor | exact Hk]. Qed.

Lemma Forall_trace_seqF (P : Gate -> Prop) (f : Functor) (s1 s2 : Op unit) :
  Forall P (trace s1) -> Forall P (trace s2) -> Forall P (trace (seqF f s1 s2)).
Proof. intros H1 H2. destruct f; simpl; apply Forall_trace_bind; auto. Qed.

Lemma Forall_trace_within (P : Gate -> Prop) (W : Functor -> Op unit)
    (B : Op unit) :
  (forall g, Forall P (trace (W g))) -> Forall P (trace B) ->
  Forall P (trace (within W B)).
Proof.
  intros HW HB. unfold within.
  apply Forall_trace_bind; [apply HW |]. intros _.
  apply Forall_trace_bind; [exact HB |]. intros _. apply HW.
Qed.

Lemma In_Most {A} (x : A) (a : list A) : In x (Most a) -> In x a.
Proof.
  destruct (snoc_case a) as [-> | [a' [y ->]]]; [intros [] |].
  rewrite Most_app_one. intros H. apply in_or_app. left. exact H.
Qed.

Lemma index_In {A} (a : list A) (i : Z) (x : A) : index a i = Ok x -> In x a.
Proof.
  unfold index. destruct (i <? 0); [discriminate |].
  destruct (a !! Z.to_nat i) as [y |] eqn:E; [| discriminate].
  intros [= <-]. apply list_elem_of_In, list_elem_of_lookup. eauto.
Qed.

Lemma Tail_In {A} (a : list A) (x : A) : Tail a = Ok x -> In x a.
Proof. unfold Tail. destruct (IsEmpty a); [discriminate | apply index_In]. Qed.

Lemma multiplexZ_gate_Most (control : list Qubit) (target : Qubit) (g : Gate) :
  multiplexZ_gate (Most control) target g -> multiplexZ_gate control target g.
Proof.
  intros [H | [c [Hc ->]]]; [left; exact H |].
  right. exists c. split; [apply In_Most, Hc | reflexivity].
Qed.

Lemma ApproximatelyMultiplexZ_gates (f : Functor) (tolerance : R)
    (target : Qubit) :
  forall (fuel : nat) (coefficients : list R) (control : list Qubit),
    Forall (multiplexZ_gate control target)
      (trace (ApproximatelyMultiplexZ fuel f tolerance coefficients control
                target)).
Proof.
  assert (Hexp : forall control c,
    Forall (multiplexZ_gate control target)
      (trace (Intrinsic.Exp f [PauliZ] c [target]))).
  { intros control c. constructor; [| constructor].
    left. destruct f; eexists; reflexivity. }
  assert (Hcnot : forall control g,
    Forall (multiplexZ_gate control target)
      (trace (t <- liftR (Tail control) ;; Intrinsic.CNOT g t target)%op)).
  { intros control g. rewrite trace_bind_pure.
    destruct (Tail control) as [t |] eqn:Ht; [| constructor].
    constructor; [| constructor].
    right. exists t. split; [apply Tail_In, Ht | reflexivity]. }
  induction fuel as [| fuel IH]; intros coefficients control;
    rewrite ApproximatelyMultiplexZ_eq;
    apply Forall_trace_pure; intros padded;
    (destruct (Length padded =? 1);
     [ apply Forall_trace_pure; intros c; case_decide;
       [apply Hexp | constructor]
     | apply Forall_trace_pure; intros [c0 c1]; apply Forall_trace_seqF;
       [| destruct (AnyOutsideToleranceD tolerance c1);
          [apply Forall_trace_within; [apply Hcnot |] | constructor] ] ]);
    try constructor;
    eapply Forall_impl; try apply IH; apply multiplexZ_gate_Most.
Qed.

Lemma length_trace_bind {A B} (m : Op A) (k : A -> Op B) (n : nat) :
  (forall a, length (trace (k a)) <= n)%nat ->
  (length (trace (bind m k)) <= length (trace m) + n)%nat.
Proof.
  intros Hk. destruct (trace_bind_cases m k) as [-> | [a ->]]; [lia |].
  rewrite length_app. specialize (Hk a). lia.
Qed.

Lemma length_trace_pure {A B} (r : result A) (k : A -> Op B) (n : nat) :
  (forall a, length (trace (k a)) <= n)%nat ->
  (length (trace (bind (liftR r) k)) <= n)%nat.
Proof. intros Hk. apply (length_trace_bind (liftR r)) in Hk. exact Hk. Qed.

Lemma length_trace_seqF (f : Functor) (s1 s2 : Op unit) (n1 n2 : nat) :
  (length (trace s1) <= n1)%nat -> (length (trace s2) <= n2)%nat ->
  (length (trace (seqF f s1 s2)) <= n1 + n2)%nat.
Proof.
  intros H1 H2. destruct f; simpl.
  - pose proof (length_trace_bind s1 (fun _ => s2) n2 (fun _ => H2)). lia.
  - pose proof (length_trace_bind s2 (fun _ => s1) n1 (fun _ => H1)). lia.
Qed.

Lemma length_trace_within (W : Functor -> Op unit) (B : Op unit) (w n : nat) :
  (forall g, length (trace (W g)) <= w)%nat -> (length (trace B) <= n)%nat ->
  (length (trace (within W B)) <= w + n + w)%nat.
Proof.
  intros HW HB. unfold within.
  pose proof (length_trace_bind B (fun _ => W Adjoint) w (fun _ => HW Adjoint))
    as H1.
  assert (H1' : (length (trace (bind B (fun _ => W Adjoint))) <= n + w)%nat)
    by lia.
  pose proof (length_trace_bind (W Body)
                (fun _ => bind B (fun _ => W Adjoint)) (n + w) (fun _ => H1'))
    as H2.
  specialize (HW Body). lia.
Qed.

Lemma pow2_nat_pos (k : nat) : (1 <= 2 ^ k)%nat.
Proof. induction k; simpl; lia. Qed.

Lemma length_CNOT_block (control : list Qubit) (target : Qubit) (g : Functor) :
  (length (trace (t <- liftR (Tail control) ;; Intrinsic.CNOT g t target)%op)
   <= 1)%nat.
Proof.
  rewrite trace_bind_pure. destruct (Tail control); simpl; lia.
Qed.

Lemma ApproximatelyMultiplexZ_gate_count (f : Functor) (tolerance : R)
    (target : Qubit) :
  forall (fuel : nat) (coefficients : list R) (control : list Qubit),
    (length (trace (ApproximatelyMultiplexZ fuel f tolerance coefficients
                      control target))
     <= 3 * 2 ^ length control - 2)%nat.
Proof.
  induction fuel as [| fuel IH]; intros coefficients control;
    pose proof (pow2_nat_pos (length control)) as Hk;
    rewrite ApproximatelyMultiplexZ_eq, trace_bind_pure;
    (destruct (Padded _ _ coefficients) as [padded |] eqn:Hpad;
     [| simpl; lia]);
    apply Padded_Length in Hpad;
    rewrite Z.abs_opp, Z.abs_eq in Hpad
      by (apply Z.lt_le_incl, pow2_pos, Length_nonneg);
    (destruct (Z.eqb_spec (Length padded) 1) as [Hone | Hmany];
     [ apply length_trace_pure; intros c; case_decide; simpl; lia |]);
    (destruct (snoc_case control) as [-> | [ctl [q ->]]];
     [exfalso; apply Hmany; rewrite Hpad; reflexivity |]);
    rewrite length_app, Nat.add_comm; cbn [length Nat.add];
    rewrite Nat.pow_succ_r'; pose proof (pow2_nat_pos (length ctl)) as Hc;
    apply length_trace_pure; intros [c0 c1]; rewrite ?Most_app_one.
  - eapply Nat.le_trans;
      [ apply (length_trace_seqF _ _ _ 0 2); [simpl; lia |];
        destruct (AnyOutsideToleranceD tolerance c1); [| simpl; lia];
        apply (length_trace_within _ _ 1 0);
          [intros g; apply length_CNOT_block | simpl; lia]
      | lia ].
  - eapply Nat.le_trans;
      [ apply (length_trace_seqF _ _ _ (3 * 2 ^ length ctl - 2)
                 (1 + (3 * 2 ^ length ctl - 2) + 1)); [apply IH |];
        destruct (AnyOutsideToleranceD tolerance c1); [| simpl; lia];
        apply length_trace_within; [intros g; apply length_CNOT_block | apply IH]
      | lia ].
Qed.

Lemma nth_all_zero (angles : list R) (i : nat) :
  all_zero angles -> nth i angles 0%R = 0%R.
Proof.
  intros H. destruct (nth_in_or_default i angles 0%R) as [Hin | ->];
    [| reflexivity].
  unfold all_zero in H. rewrite List.Forall_forall in H. apply H, Hin.
Qed.

Lemma all_zero_map_seq (h : nat -> R) (m : nat) :
  (forall i, h i = 0%R) -> all_zero (map h (seq 0 m)).
Proof.
  intros H. apply List.Forall_forall. intros x Hx.
  apply in_map_iff in Hx. destruct Hx as [i [<- _]]. apply H.
Qed.

Lemma MultiplexZCoefficients_all_zero (angles c0 c1 : list R) :
  all_zero angles -> MultiplexZCoefficients angles = Ok (c0, c1) ->
  all_zero c0 /\ all_zero c1.
Proof.
  intros H. rewrite MultiplexZCoefficients_closed. intros [= <- <-].
  split; apply all_zero_map_seq; intros i; unfold half_sum, half_diff;
    rewrite !nth_all_zero by exact H; lra.
Qed.

Lemma Padded_all_zero (n : Z) (angles padded : list R) :
  all_zero angles -> Padded n 0.0%R angles = Ok padded -> all_zero padded.
Proof.
  intros H. unfold Padded.
  destruct (Z.abs n <? Length angles); [discriminate |].
  assert (Hrep : forall k, all_zero (repeat 0.0%R k)).
  { intros k. apply List.Forall_forall. intros x Hx.
    apply repeat_spec in Hx. subst x. lra. }
  destruct (0 <=? n); intros [= <-]; apply Forall_app; split;
    try apply Hrep; exact H.
Qed.

Lemma AnyOutsideToleranceD_all_zero (tolerance : R) (angles : list R) :
  (0 < tolerance)%R -> all_zero angles ->
  AnyOutsideToleranceD tolerance angles = false.
Proof.
  intros Htol H. induction H as [| x rest Hx _ IH]; [reflexivity |].
  simpl. subst x. unfold AbsD. rewrite Rabs_R0.
  case_decide; [lra | exact IH].
Qed.

Lemma seqF_run (f : Functor) (s1 s2 : Op unit) tr1 tr2 :
  s1 = (tr1, Ok tt) -> s2 = (tr2, Ok tt) ->
  seqF f s1 s2 =
  (match f with Body => tr1 ++ tr2 | Adjoint => tr2 ++ tr1 end, Ok tt).
Proof. intros -> ->. destruct f; reflexivity. Qed.

Lemma ApproximatelyMultiplexZ_zero_pruned (f : Functor) (tolerance : R)
    (target : Qubit) :
  (0 < tolerance)%R ->
  forall (fuel : nat) (control : list Qubit) (angles : list R),
    all_zero angles ->
    (length control <= fuel)%nat ->
    Length angles <= 2 ^ Length control ->
    ApproximatelyMultiplexZ fuel f tolerance angles control target =
    ([], Ok tt).
Proof.
  intros Htol.
  induction fuel as [| fuel IH]; intros control angles Hzero Hfuel Hlen;
    destruct (Padded_pow2 0.0%R _ angles (Length_nonneg control) Hlen)
      as [padded [Hpad HpadLen]];
    pose proof (Padded_all_zero _ _ _ Hzero Hpad) as Hpz;
    destruct (snoc_case control) as [-> | [ctl [q ->]]];
    try (rewrite length_app in Hfuel; simpl in Hfuel; lia).
  1, 2:
    rewrite ApproximatelyMultiplexZ_eq, Hpad, bind_liftR_Ok, HpadLen;
    change (2 ^ Length (@nil Qubit) =? 1) with true; cbv iota;
    destruct (index_lt padded 0) as [c Hc];
      [rewrite HpadLen; change (2 ^ Length (@nil Qubit)) with 1; lia |];
    rewrite Hc, bind_liftR_Ok;
    apply index_In in Hc; unfold all_zero in Hpz; rewrite List.Forall_forall in Hpz;
    rewrite (Hpz c Hc); unfold AbsD; rewrite Rabs_R0;
    case_decide; [lra | reflexivity].
  destruct (MultiplexZCoefficients_all_zero padded _ _ Hpz
              (MultiplexZCoefficients_closed padded)) as [H0 H1].
  rewrite (ApproximatelyMultiplexZ_node _ _ _ _ _ _ _ _ _ _ Hpad
             (MultiplexZCoefficients_closed _)).
  rewrite (AnyOutsideToleranceD_all_zero _ _ Htol H1).
  rewrite pow2_Length_app_one in HpadLen. apply half_Length in HpadLen.
  rewrite length_app in Hfuel. simpl in Hfuel.
  rewrite (seqF_run f _ _ [] []); [destruct f; reflexivity | | reflexivity].
  apply IH; [exact H0 | lia |].
  unfold Length at 1. rewrite length_map, length_seq. lia.
Qed.

Lemma ApproximatelyMultiplexZ_zero_exact (f : Functor) (target : Qubit) :
  forall (fuel : nat) (control : list Qubit) (angles : list R),
    all_zero angles ->
    (length control <= fuel)%nat ->
    Length angles <= 2 ^ Length control ->
    exists tr,
      ApproximatelyMultiplexZ fuel f 0 angles control target = (tr, Ok tt) /\
      Forall (multiplexZ_CNOT control target) tr /\
      length tr = (2 ^ S (length control) - 2)%nat.
Proof.
  induction fuel as [| fuel IH]; intros control angles Hzero Hfuel Hlen;
    destruct (Padded_pow2 0.0%R _ angles (Length_nonneg control) Hlen)
      as [padded [Hpad HpadLen]];
    pose proof (Padded_all_zero _ _ _ Hzero Hpad) as Hpz;
    destruct (snoc_case control) as [-> | [ctl [q ->]]];
    try (rewrite length_app in Hfuel; simpl in Hfuel; lia).
  1, 2:
    exists []; split; [| split; [constructor | reflexivity]];
    rewrite ApproximatelyMultiplexZ_eq, Hpad, bind_liftR_Ok, HpadLen;
    change (2 ^ Length (@nil Qubit) =? 1) with true; cbv iota;
    destruct (index_lt padded 0) as [c Hc];
      [rewrite HpadLen; change (2 ^ Length (@nil Qubit)) with 1; lia |];
    rewrite Hc, bind_liftR_Ok;
    apply index_In in Hc; unfold all_zero in Hpz; rewrite List.Forall_forall in Hpz;
    rewrite (Hpz c Hc); unfold AbsD; rewrite Rabs_R0;
    case_decide; [lra | reflexivity].
  destruct (MultiplexZCoefficients_all_zero padded _ _ Hpz
              (MultiplexZCoefficients_closed padded)) as [H0 H1].
  rewrite (ApproximatelyMultiplexZ_node _ _ _ _ _ _ _ _ _ _ Hpad
             (MultiplexZCoefficients_closed _)).
  rewrite pow2_Length_app_one in HpadLen. apply half_Length in HpadLen.
  rewrite length_app in Hfuel. simpl in Hfuel.
  pose proof (pow2_pos (Length ctl) (Length_nonneg _)) as Hpos.
  rewrite AnyOutsideToleranceD_nonpositive.
  2: lra.
  2:{ intros E. apply (f_equal (@length R)) in E.
      rewrite length_map, length_seq in E.
      change (@length R []) with 0%nat in E. lia. }
  destruct (IH ctl (map (half_sum padded (length padded / 2))
                      (seq 0 (length padded / 2)))) as [tr0 [Hr0 [Hg0 Hn0]]];
    [exact H0 | lia | unfold Length at 1; rewrite length_map, length_seq; lia |].
  destruct (IH ctl (map (half_diff padded (length padded / 2))
                      (seq 0 (length padded / 2)))) as [tr1 [Hr1 [Hg1 Hn1]]];
    [exact H1 | lia | unfold Length at 1; rewrite length_map, length_seq; lia |].
  assert (Hmono : forall g, multiplexZ_CNOT ctl target g ->
                            multiplexZ_CNOT (ctl ++ [q]) target g).
  { intros g [c [Hc ->]]. exists c. split; [| reflexivity].
    apply in_or_app. left. exact Hc. }
  assert (Hq : multiplexZ_CNOT (ctl ++ [q]) target (GateCNOT q target)).
  { exists q. split; [| reflexivity]. apply in_or_app. right. left. reflexivity. }
  apply (List.Forall_impl _ Hmono) in Hg0. apply (List.Forall_impl _ Hmono) in Hg1.
  pose proof (pow2_nat_pos (length ctl)) as Hc.
  assert (H2 : (2 ^ S (length (ctl ++ [q])) = 4 * 2 ^ length ctl)%nat).
  { rewrite length_app, Nat.add_comm. cbn [length Nat.add].
    rewrite !Nat.pow_succ_r'. lia. }
  rewrite Nat.pow_succ_r' in Hn0, Hn1.
  eexists. split; [| split].
  - apply seqF_run; [exact Hr0 |].
    apply (within_run _ _ [GateCNOT q target] tr1 [GateCNOT q target]);
      [reflexivity | exact Hr1 | reflexivity].
  - destruct f; repeat (apply Forall_app; split); auto.
  - rewrite H2. destruct f; rewrite !length_app; simpl; rewrite ?length_app; simpl; lia.
Qed.

Lemma ApproximatelyMultiplexZ_padding (fuel : nat) (f : Functor)
    (tolerance : R) (angles : list R) (control : list Qubit) (target : Qubit) :
  Length angles <= 2 ^ Length control ->
  ApproximatelyMultiplexZ fuel f tolerance angles control target =
  ApproximatelyMultiplexZ fuel f tolerance
    (angles ++ repeat 0.0%R (Z.to_nat (2 ^ Length control - Length angles)))
    control target.
Proof.
  intros Hlen. pose proof (pow2_pos (Length control) (Length_nonneg _)) as Hpos.
  rewrite !ApproximatelyMultiplexZ_eq.
  rewrite (Padded_tail _ _ angles Hpos Hlen).
  rewrite Padded_tail; [| exact Hpos |].
  - replace (Z.to_nat (2 ^ Length control - Length (angles ++ _))) with 0%nat.
    + cbn [repeat]. rewrite app_nil_r. reflexivity.
    + unfold Length at 2. rewrite length_app, repeat_length.
      unfold Length in *. lia.
  - unfold Length at 1. rewrite length_app, repeat_length.
    unfold Length in *. lia.
Qed.

Lemma acts_within_incl (qs qs' : list Qubit) (g : Gate) :
  incl qs qs' -> acts_within qs g -> acts_within qs' g.
Proof. intros H Hg q Hq. apply H, Hg, Hq. Qed.

Lemma multiplexZ_gate_acts_within (qubits control : list Qubit)
    (target : Qubit) (g : Gate) :
  incl control qubits -> In target qubits ->
  multiplexZ_gate control target g -> acts_within qubits g.
Proof.
  intros Hc Ht [[theta ->] | [c [Hin ->]]] q; simpl.
  - intros [<- | []]. exact Ht.
  - intros [<- | [<- | []]]; [apply Hc, Hin | exact Ht].
Qed.

Lemma incl_Most {A} (a : list A) : incl (Most a) a.
Proof. intros x. apply In_Most. Qed.

Lemma index_all_incl {A} (a : list A) :
  forall (idxs : list Z) (l : list A), index_all a idxs = Ok l -> incl l a.
Proof.
  induction idxs as [| i rest IH]; simpl; intros l.
  - intros [= <-] x [].
  - destruct (index a i) as [x |] eqn:Hx; [| discriminate]. simpl.
    destruct (index_all a rest) as [xs |]; [| discriminate]. simpl.
    intros [= <-] y [<- | Hy]; [eapply index_In, Hx | eapply IH; eauto].
Qed.

Lemma slice_incl {A} (a : list A) (r : Range) (l : list A) :
  slice a r = Ok l -> incl l a.
Proof.
  unfold slice. destruct (range_items r) as [items |]; [| discriminate].
  apply index_all_incl.
Qed.

Lemma ApproximatelyMultiplexZ_acts_within (qubits : list Qubit) (fuel : nat)
    (f : Functor) (tolerance : R) (coefficients : list R)
    (control : list Qubit) (target : Qubit) :
  incl control qubits -> In target qubits ->
  Forall (acts_within qubits)
    (trace (ApproximatelyMultiplexZ fuel f tolerance coefficients control
              target)).
Proof.
  intros Hc Ht. eapply List.Forall_impl;
    [| apply ApproximatelyMultiplexZ_gates].
  intros g. apply multiplexZ_gate_acts_within; assumption.
Qed.

Lemma ApproximatelyApplyDiagonalUnitary_acts_within (f : Functor)
    (tolerance : R) :
  forall (fuel : nat) (coefficients : list R) (qubits : list Qubit),
    Forall (acts_within qubits)
      (trace (ApproximatelyApplyDiagonalUnitary fuel f tolerance coefficients
                qubits)).
Proof.
  induction fuel as [| fuel IH]; intros coefficients qubits;
    rewrite ApproximatelyApplyDiagonalUnitary_eq;
    (apply Forall_trace_bind; [destruct (IsEmpty qubits); constructor |]);
    intros _; apply Forall_trace_pure; intros padded;
    apply Forall_trace_pure; intros [c0 c1];
    (apply Forall_trace_seqF;
     [ rewrite trace_bind_pure; destruct (Tail qubits) as [t |] eqn:Ht;
       [| constructor];
       apply ApproximatelyMultiplexZ_acts_within;
       [apply incl_Most | apply Tail_In, Ht]
     | destruct (Length padded =? 2);
       [ apply Forall_trace_pure; intros c; case_decide;
         [repeat constructor; intros q Hq; exact Hq | constructor] |] ]).
  - constructor.
  - eapply List.Forall_impl; [| apply IH].
    intros g. apply acts_within_incl, incl_Most.
Qed.

Lemma ApproximatelyMultiplexPauli_acts_within (qubits : list Qubit)
    (fuel : nat) (f : Functor) (tolerance : R) (coefficients : list R)
    (pauli : Pauli) (control : list Qubit) (target : Qubit) :
  incl control qubits -> In target qubits ->
  Forall (acts_within qubits)
    (trace (ApproximatelyMultiplexPauli fuel f tolerance coefficients pauli
              control target)).
Proof.
  intros Hc Ht.
  pose proof (ApproximatelyMultiplexZ_acts_within qubits fuel f tolerance
                coefficients control target Hc Ht) as HZ.
  assert (Hone : forall g, (exists q, gate_qubits g = [q] /\ q = target) ->
                           Forall (acts_within qubits) [g]).
  { intros g [q [Hg ->]]. constructor; [| constructor].
    unfold acts_within. rewrite Hg. intros q [<- | []]. exact Ht. }
  assert (HH : forall g, Forall (acts_within qubits)
                           (trace (Intrinsic.H g target)))
    by (intros g; apply Hone; eexists; split; reflexivity).
  assert (HS : forall g, Forall (acts_within qubits)
                           (trace (Intrinsic.S (inv g) target)))
    by (intros g; apply Hone; destruct g; eexists; split; reflexivity).
  destruct pauli; unfold ApproximatelyMultiplexPauli.
  - eapply List.Forall_impl;
      [| apply ApproximatelyApplyDiagonalUnitary_acts_within].
    intros g. apply acts_within_incl, Hc.
  - apply Forall_trace_within; assumption.
  - apply Forall_trace_within; [assumption |].
    apply Forall_trace_within; assumption.
  - exact HZ.
Qed.

Lemma ApproximatelyUnprepareArbitraryState_acts_within (f : Functor)
    (tolerance : R) (register : list Qubit) :
  forall (fuel : nat) (coefficients : list ComplexPolar) (rngControl : Range)
         (idxTarget : Z),
    Forall (acts_within register)
      (trace (ApproximatelyUnprepareArbitraryState fuel f tolerance
                coefficients rngControl idxTarget register)).
Proof.
  assert (Hmul : forall fuel angles pauli rngControl idxTarget,
    Forall (acts_within register)
      (trace
         (if AnyOutsideToleranceD tolerance angles then
            control <- liftR (slice register rngControl) ;;
            target <- liftR (index register idxTarget) ;;
            ApproximatelyMultiplexPauli fuel f tolerance angles pauli control
              target
          else ret tt)%op)).
  { intros fuel angles pauli rngControl idxTarget.
    destruct (AnyOutsideToleranceD tolerance angles); [| constructor].
    rewrite trace_bind_pure.
    destruct (slice register rngControl) as [control |] eqn:Hctl;
      [| constructor].
    rewrite trace_bind_pure.
    destruct (index register idxTarget) as [target |] eqn:Htgt;
      [| constructor].
    apply ApproximatelyMultiplexPauli_acts_within;
      [eapply slice_incl, Hctl | eapply index_In, Htgt]. }
  induction fuel as [| fuel IH]; intros coefficients rngControl idxTarget;
    rewrite ApproximatelyUnprepareArbitraryState_eq; cbv zeta;
    apply Forall_trace_pure; intros [[dY dZ] nc];
    (apply Forall_trace_seqF; [apply Hmul |]);
    (apply Forall_trace_seqF; [apply Hmul |]);
    apply Forall_trace_pure; intros [|];
    try (apply Forall_trace_pure; intros c; cbv zeta; case_decide;
         [| constructor];
         rewrite trace_bind_pure;
         destruct (index register idxTarget) as [target |] eqn:Htgt;
         [| constructor];
         constructor; [| constructor];
         intros q [<- | []]; eapply index_In, Htgt);
    (destruct (AnyOutsideToleranceCP tolerance nc); [| constructor]);
    [constructor | apply IH].
Qed.

Lemma ApproximatelyApplyDiagonalUnitary_gate_count (f : Functor)
    (tolerance : R) :
  forall (fuel : nat) (coefficients : list R) (qubits : list Qubit),
    (length (trace (ApproximatelyApplyDiagonalUnitary fuel f tolerance
                      coefficients qubits))
     <= 3 * 2 ^ length qubits - 2)%nat.
Proof.
  induction fuel as [| fuel IH]; intros coefficients qubits;
    rewrite ApproximatelyApplyDiagonalUnitary_eq;
    (destruct (snoc_case qubits) as [-> | [qs [q ->]]]; [simpl; lia |]);
    rewrite IsEmpty_app_one, bind_ret, Tail_app_one;
    rewrite length_app, Nat.add_comm; cbn [length Nat.add];
    rewrite Nat.pow_succ_r'; pose proof (pow2_nat_pos (length qs)) as Hq;
    apply length_trace_pure; intros padded;
    apply length_trace_pure; intros [c0 c1];
    rewrite bind_liftR_Ok, Most_app_one;
    pose proof (ApproximatelyMultiplexZ_gate_count f tolerance q)
      as HZ.
  - eapply Nat.le_trans;
      [ apply (length_trace_seqF _ _ _ (3 * 2 ^ length qs - 2) 1);
        [apply HZ |];
        destruct (Length padded =? 2); [| simpl; lia];
        apply length_trace_pure; intros c; case_decide; simpl; lia
      | lia ].
  - eapply Nat.le_trans;
      [ apply (length_trace_seqF _ _ _ (3 * 2 ^ length qs - 2)
                 (3 * 2 ^ length qs - 1));
        [apply HZ |];
        destruct (Length padded =? 2);
        [ apply length_trace_pure; intros c; case_decide; simpl; lia
        | eapply Nat.le_trans; [apply IH | lia] ]
      | lia ].
Qed.

Lemma ApproximatelyMultiplexPauli_gate_count (fuel : nat) (f : Functor)
    (tolerance : R) (coefficients : list R) (pauli : Pauli)
    (control : list Qubit) (target : Qubit) :
  (length (trace (ApproximatelyMultiplexPauli fuel f tolerance coefficients
                    pauli control target))
   <= 3 * 2 ^ length control - 2 + basis_change_gates pauli)%nat.
Proof.
  pose proof (ApproximatelyMultiplexZ_gate_count f tolerance target fuel
                coefficients control) as HZ.
  pose proof (pow2_nat_pos (length control)) as Hk.
  assert (HH : forall g, (length (trace (Intrinsic.H g target)) <= 1)%nat)
    by (intros g; simpl; lia).
  assert (HS : forall g, (length (trace (Intrinsic.S (inv g) target)) <= 1)%nat)
    by (intros g; simpl; lia).
  destruct pauli; unfold ApproximatelyMultiplexPauli, basis_change_gates.
  - pose proof (ApproximatelyApplyDiagonalUnitary_gate_count f tolerance fuel
                  coefficients control). lia.
  - eapply Nat.le_trans; [apply (length_trace_within _ _ 1 _ HH HZ) | lia].
  - eapply Nat.le_trans;
      [ apply (length_trace_within _ _ 1 _ HS
                 (length_trace_within _ _ 1 _ HH HZ))
      | lia ].
  - lia.
Qed.

Lemma index_all_length {A} (a : list A) :
  forall (idxs : list Z) (l : list A),
    index_all a idxs = Ok l -> length l = length idxs.
Proof.
  induction idxs as [| i rest IH]; simpl; intros l.
  - intros [= <-]. reflexivity.
  - destruct (index a i) as [x |]; [| discriminate]. simpl.
    destruct (index_all a rest) as [xs |] eqn:E; [| discriminate]. simpl.
    intros [= <-]. simpl. f_equal. apply IH. reflexivity.
Qed.

Lemma range_items_length (r : Range) (items : list Z) :
  range_items r = Ok items -> length items = range_size r.
Proof.
  unfold range_items. destruct (RangeStep r =? 0); [discriminate |].
  intros [= <-]. rewrite length_map, length_seq. reflexivity.
Qed.

Lemma slice_length {A} (a : list A) (r : Range) (l : list A) :
  slice a r = Ok l -> length l = range_size r.
Proof.
  unfold slice. destruct (range_items r) as [items |] eqn:E; [| discriminate].
  simpl. intros H. apply index_all_length in H.
  rewrite H. apply range_items_length, E.
Qed.

Lemma IsRangeEmpty_size (r : Range) (b : bool) :
  IsRangeEmpty r = Ok b -> b = true <-> range_size r = 0%nat.
Proof.
  unfold IsRangeEmpty. destruct (range_items r) as [items |] eqn:E;
    [| discriminate].
  apply range_items_length in E. simpl. intros [= <-].
  destruct items; simpl in E; split; intros; congruence || lia.
Qed.

Lemma newControl_size (r : Range) :
  RangeStep r = 1 -> range_size r <> 0%nat ->
  range_size (range3 (RangeStart r + 1) (RangeStep r) (RangeEnd r)) =
  (range_size r - 1)%nat.
Proof.
  destruct r as [a s b]. simpl. intros -> H. unfold range_size, range3 in *.
  simpl in *. rewrite !Z.div_1_r in *.
  destruct (Z.leb_spec a b); [| lia].
  destruct (Z.leb_spec (a + 1) b); lia.
Qed.

Lemma ApproximatelyUnprepareArbitraryState_gate_count (f : Functor)
    (tolerance : R) (register : list Qubit) :
  forall (fuel : nat) (coefficients : list ComplexPolar) (rngControl : Range)
         (idxTarget : Z),
    RangeStep rngControl = 1 ->
    (length (trace (ApproximatelyUnprepareArbitraryState fuel f tolerance
                      coefficients rngControl idxTarget register))
     <= 12 * 2 ^ range_size rngControl - 5)%nat.
Proof.
  assert (Hmul : forall fuel angles pauli rngControl idxTarget,
    (length (trace
       (if AnyOutsideToleranceD tolerance angles then
          control <- liftR (slice register rngControl) ;;
          target <- liftR (index register idxTarget) ;;
          ApproximatelyMultiplexPauli fuel f tolerance angles pauli control
            target
        else ret tt)%op)
     <= 3 * 2 ^ range_size rngControl - 2 + basis_change_gates pauli)%nat).
  { intros fuel angles pauli rngControl idxTarget.
    destruct (AnyOutsideToleranceD tolerance angles); [| simpl; lia].
    rewrite trace_bind_pure.
    destruct (slice register rngControl) as [control |] eqn:Hctl;
      [| simpl; lia].
    apply length_trace_pure; intros target.
    rewrite <- (slice_length _ _ _ Hctl).
    apply ApproximatelyMultiplexPauli_gate_count. }
  induction fuel as [| fuel IH]; intros coefficients rngControl idxTarget Hstep;
    pose proof (pow2_nat_pos (range_size rngControl)) as Hk;
    rewrite ApproximatelyUnprepareArbitraryState_eq; cbv zeta;
    apply length_trace_pure; intros [[dY dZ] nc];
    (eapply Nat.le_trans;
     [ apply (length_trace_seqF _ _ _ (3 * 2 ^ range_size rngControl - 2 + 0)
                (3 * 2 ^ range_size rngControl - 2 + 4
                 + (6 * 2 ^ range_size rngControl - 5)));
       [ apply (Hmul _ _ PauliZ) |];
       apply length_trace_seqF; [apply (Hmul _ _ PauliY) |];
       rewrite trace_bind_pure;
       destruct (IsRangeEmpty rngControl) as [[|] |] eqn:Hempty;
       [ apply length_trace_pure; intros c; cbv zeta; case_decide;
         [apply length_trace_pure; intros target; simpl; lia | simpl; lia]
       | destruct (AnyOutsideToleranceCP tolerance nc); [| simpl; lia]
       | simpl; lia ]
     | lia ]).
  - simpl; lia.
  - pose proof (proj2 (IsRangeEmpty_size _ _ Hempty)) as Hne.
    assert (Hsz : range_size rngControl <> 0%nat)
      by (intros E; specialize (Hne E); discriminate).
    eapply Nat.le_trans; [apply IH; exact Hstep |].
    rewrite (newControl_size _ Hstep Hsz).
    destruct (range_size rngControl) as [| k]; [contradiction |].
    replace (S k - 1)%nat with k by lia. rewrite Nat.pow_succ_r'.
    pose proof (pow2_nat_pos k). lia.
Qed.

Lemma MultiplexZCoefficients_trailing (angles : list R) (x : R) (m : nat) :
  length angles = (2 * m)%nat ->
  MultiplexZCoefficients (angles ++ [x]) = MultiplexZCoefficients angles.
Proof.
  intros Hlen. rewrite !MultiplexZCoefficients_closed.
  rewrite length_app. cbn [length].
  replace ((length angles + 1) / 2)%nat with m
    by (rewrite Hlen; replace (2 * m + 1)%nat with (1 + m * 2)%nat by lia;
        rewrite Nat.div_add by lia; reflexivity).
  replace (length angles / 2)%nat with m
    by (rewrite Hlen, Nat.mul_comm, Nat.div_mul; lia).
  f_equal. f_equal; apply map_ext_in; intros i Hi; apply in_seq in Hi;
    unfold half_sum, half_diff; rewrite !app_nth1 by lia; reflexivity.
Qed.

Lemma AnyOutsideToleranceCP_spec (tolerance : R)
    (coefficients : list ComplexPolar) :
  AnyOutsideToleranceCP tolerance coefficients = true <->
  exists c, In c coefficients /\ (Magnitude c > tolerance)%R.
Proof.
  induction coefficients as [| c rest IH]; simpl.
  - split; [discriminate | intros [c [[] _]]].
  - unfold AbsComplexPolar at 1. case_decide as Hc.
    + split; [| reflexivity]. intros _. exists c. auto.
    + rewrite IH. split.
      * intros [c' [Hin Hgt]]. exists c'. auto.
      * intros [c' [[<- | Hin] Hgt]]; [contradiction | exists c'; auto].
Qed.

Lemma AnyOutsideToleranceCP_small (tolerance : R)
    (coefficients : list ComplexPolar) :
  Forall (fun c => (Magnitude c <= tolerance)%R) coefficients ->
  AnyOutsideToleranceCP tolerance coefficients = false.
Proof.
  intros H. destruct (AnyOutsideToleranceCP tolerance coefficients) eqn:E;
    [| reflexivity].
  apply AnyOutsideToleranceCP_spec in E. destruct E as [c [Hin Hgt]].
  rewrite List.Forall_forall in H. specialize (H c Hin). lra.
Qed.

Lemma ApproximatelyPreparePureStateCP_empty_register_run (fuel : nat)
    (f : Functor) (tolerance : R) (coefficients : list ComplexPolar) :
  Length coefficients <= 1 ->
  ApproximatelyPreparePureStateCP fuel f tolerance coefficients [] =
  ([], Err IndexOutOfRange).
Proof.
  intros H. unfold ApproximatelyPreparePureStateCP.
  destruct coefficients as [| c [| c' rest]];
    [| | unfold Length in H; simpl in H; lia];
    destruct fuel; reflexivity.
Qed.

Lemma nth_zero_amplitude (coefficients : list ComplexPolar) (i : nat) :
  Forall zero_amplitude coefficients ->
  zero_amplitude (nth i coefficients (MkComplexPolar 0 0)).
Proof.
  intros H. destruct (nth_in_or_default i coefficients (MkComplexPolar 0 0))
    as [Hin | ->]; [| split; reflexivity].
  rewrite List.Forall_forall in H. apply H, Hin.
Qed.

Lemma pair_coordinates_zero (coefficients : list ComplexPolar) (i : nat) :
  Forall zero_amplitude coefficients ->
  zero_amplitude (pair_coordinates coefficients i).1.1 /\
  (pair_coordinates coefficients i).1.2 = 0%R /\
  (pair_coordinates coefficients i).2 = 0%R.
Proof.
  intros H. unfold pair_coordinates, BlochSphereCoordinates, zero_amplitude,
    AbsComplexPolar, ArgComplexPolar, Sqrt.
  destruct (nth_zero_amplitude coefficients (2 * i) H) as [-> ->].
  destruct (nth_zero_amplitude coefficients (2 * i + 1) H) as [-> ->].
  cbn [fst snd Magnitude Argument]. rewrite ArcTan2_origin.
  replace (0 * 0 + 0 * 0)%R with 0%R by ring. rewrite sqrt_0.
  repeat split; lra.
Qed.

Lemma Padded_zero_amplitude (n : Z) (coefficients padded : list ComplexPolar) :
  Forall zero_amplitude coefficients ->
  Padded n (MkComplexPolar 0.0 0.0) coefficients = Ok padded ->
  Forall zero_amplitude padded.
Proof.
  intros H. unfold Padded.
  destruct (Z.abs n <? Length coefficients); [discriminate |].
  assert (Hrep : forall k,
            Forall zero_amplitude (repeat (MkComplexPolar 0.0 0.0) k)).
  { intros k. apply List.Forall_forall. intros x Hx.
    apply repeat_spec in Hx. subst x. split; simpl; lra. }
  destruct (0 <=? n); intros [= <-]; apply Forall_app; split;
    try apply Hrep; exact H.
Qed.

Lemma ApproximatelyPreparePureStateCP_zero_run (fuel : nat) (f : Functor)
    (tolerance : R) (coefficients : list ComplexPolar) (qubits : list Qubit) :
  (0 < tolerance)%R ->
  Forall zero_amplitude coefficients ->
  qubits <> [] ->
  Length coefficients <= 2 ^ Length qubits ->
  ApproximatelyPreparePureStateCP fuel f tolerance coefficients qubits =
  ([], Ok tt).
Proof.
  intros Htol Hzero Hne Hlen. unfold ApproximatelyPreparePureStateCP.
  assert (Hn : 1 <= Length qubits).
  { destruct qubits; [contradiction |]. unfold Length. simpl. lia. }
  destruct (Padded_pow2 (MkComplexPolar 0.0 0.0) _ coefficients
              (Length_nonneg qubits) Hlen) as [padded [Hpad HpadLen]].
  pose proof (Padded_zero_amplitude _ _ _ Hzero Hpad) as Hpz.
  rewrite Hpad, bind_liftR_Ok.
  replace (if 1 <? Length qubits then range 1 (Length qubits - 1) else range 1 0)
    with (range3 1 1 (Length qubits - 1)).
  2:{ destruct (Z.ltb_spec 1 (Length qubits)); [reflexivity |].
      replace (Length qubits) with 1 by lia. reflexivity. }
  rewrite ApproximatelyUnprepareArbitraryState_eq. cbv zeta.
  pose proof (pow2_pos (Length qubits - 1)) as Hpos.
  assert (Hm : length padded = (2 * Z.to_nat (2 ^ (Length qubits - 1)))%nat).
  { unfold Length in HpadLen at 1.
    replace (Length qubits) with (Length qubits - 1 + 1) in HpadLen by lia.
    rewrite Z.pow_add_r in HpadLen by lia. lia. }
  rewrite (StatePreparationSBMComputeCoefficients_closed _ _ Hm), bind_liftR_Ok.
  set (m := Z.to_nat (2 ^ (Length qubits - 1))) in *.
  assert (HY : all_zero
            (map (fun i => (0.5 * (pair_coordinates padded i).2)%R) (seq 0 m))).
  { apply all_zero_map_seq. intros i.
    destruct (pair_coordinates_zero padded i Hpz) as [_ [_ ->]]. lra. }
  assert (HZ : all_zero
            (map (fun i => (0.5 * (pair_coordinates padded i).1.2)%R)
               (seq 0 m))).
  { apply all_zero_map_seq. intros i.
    destruct (pair_coordinates_zero padded i Hpz) as [_ [-> _]]. lra. }
  rewrite !AnyOutsideToleranceD_all_zero by assumption.
  assert (Hnc : Forall zero_amplitude
            (map (fun i => (pair_coordinates padded i).1.1) (seq 0 m))).
  { apply List.Forall_forall. intros c Hc. apply in_map_iff in Hc.
    destruct Hc as [i [<- _]]. apply pair_coordinates_zero, Hpz. }
  assert (Hs : forall g X, X = ([], Ok tt) ->
                 seqF g (ret tt) (seqF g (ret tt) X) = ([], Ok tt))
    by (intros g X ->; destruct g; reflexivity).
  apply Hs. rewrite IsRangeEmpty_unit_step, bind_liftR_Ok.
  destruct (Z.ltb_spec (Length qubits - 1) 1) as [Hone | Hmany].
  - destruct (index_lt (map (fun i => (pair_coordinates padded i).1.1)
                          (seq 0 m)) 0) as [c Hc].
    { unfold Length. rewrite length_map, length_seq. unfold m. lia. }
    rewrite Hc, bind_liftR_Ok. cbv zeta.
    apply index_In in Hc. rewrite List.Forall_forall in Hnc.
    destruct (Hnc c Hc) as [_ ->]. unfold AbsD. rewrite Rabs_R0.
    case_decide; [lra | reflexivity].
  - rewrite AnyOutsideToleranceCP_small; [reflexivity |].
    eapply List.Forall_impl; [| exact Hnc]. intros c [-> _]. lra.
Qed.

Lemma ApproximatelyApplyDiagonalUnitary_one_qubit (fuel : nat) (tolerance : R)
    (a b : R) (q : Qubit) :
  ApproximatelyApplyDiagonalUnitary fuel Body tolerance [a; b] [q] =
  ((if decide (Rabs (0.5 * (a - b)) > tolerance)%R
    then [GateExp [PauliZ] (0.5 * (a - b)) [q]] else []) ++
   (if decide (Rabs (0.5 * (a + b)) > tolerance)%R
    then [GateExp [PauliI] (1.0 * (0.5 * (a + b))) [q]] else []),
   Ok tt).
Proof.
  rewrite ApproximatelyApplyDiagonalUnitary_eq.
  change (IsEmpty [q]) with false. cbv iota. rewrite bind_ret.
  change (Padded _ _ [a; b]) with (Ok [a; b]). rewrite bind_liftR_Ok.
  change (MultiplexZCoefficients [a; b]) with
    (Ok ([(0.5 * (a + b))%R], [(0.5 * (a - b))%R])).
  rewrite bind_liftR_Ok.
  change (Tail [q]) with (Ok q). rewrite bind_liftR_Ok.
  change (Most [q]) with (@nil Qubit).
  rewrite (ApproximatelyMultiplexZ_leaf _ _ _ _ (0.5 * (a - b))%R)
    by reflexivity.
  change (Length [a; b] =? 2) with true. cbv iota.
  rewrite index_head, bind_liftR_Ok. unfold AbsD, seqF.
  repeat case_decide; reflexivity.
Qed.

(** * Further properties of the source *)

(** X1. [MultiplexZCoefficients] never fails: on an array of any length [n]
    it returns two arrays of length [n / 2] (integer division). *)
Theorem MultiplexZCoefficients_total (angles : list R) :
  exists coefficients0 coefficients1,
    MultiplexZCoefficients angles = Ok (coefficients0, coefficients1) /\
    length coefficients0 = (length angles / 2)%nat /\
    length coefficients1 = (length angles / 2)%nat.
Proof.
  do 2 eexists. split; [apply MultiplexZCoefficients_closed |].
  rewrite !length_map, !length_seq. split; reflexivity.
Qed.

(** X2. [MultiplexZCoefficients] ignores the last element of an array of odd
    length. *)
Theorem MultiplexZCoefficients_trailing_element (angles : list R) (x : R)
    (m : nat) :
  length angles = (2 * m)%nat ->
  MultiplexZCoefficients (angles ++ [x]) = MultiplexZCoefficients angles.
Proof. apply MultiplexZCoefficients_trailing. Qed.

Lemma MultiplexZCoefficients_trailing_element_witness :
  MultiplexZCoefficients ([1; 2] ++ [7])%R = MultiplexZCoefficients [1; 2]%R.
Proof.
  apply (MultiplexZCoefficients_trailing_element [1; 2]%R 7%R 1). reflexivity.
Defined.

(** X3. On a coefficient array of even length [2m],
    [StatePreparationSBMComputeCoefficients] returns three arrays of length
    [m]; entry [i] of each comes from the pair [(r0, t0), (r1, t1)] at
    positions [2i] and [2i+1]: the Z angle is [(t1 - t0) / 2], the Y angle is
    [atan2(r1, r0)], and the merged coefficient is
    [(sqrt(r0^2 + r1^2), (t0 + t1) / 2)]. *)
Theorem StatePreparationSBMComputeCoefficients_pairs
    (coefficients : list ComplexPolar) (m : nat) :
  length coefficients = (2 * m)%nat ->
  exists disentanglingY disentanglingZ newCoefficients,
    StatePreparationSBMComputeCoefficients coefficients =
      Ok (disentanglingY, disentanglingZ, newCoefficients) /\
    length disentanglingY = m /\ length disentanglingZ = m /\
    length newCoefficients = m /\
    forall i, (i < m)%nat ->
      let a0 := nth (2 * i) coefficients (MkComplexPolar 0 0) in
      let a1 := nth (2 * i + 1) coefficients (MkComplexPolar 0 0) in
      nth i disentanglingZ 0%R = ((Argument a1 - Argument a0) / 2)%R /\
      nth i disentanglingY 0%R = ArcTan2 (Magnitude a1) (Magnitude a0) /\
      nth i newCoefficients (MkComplexPolar 0 0) =
        MkComplexPolar (sqrt (Magnitude a0 ^ 2 + Magnitude a1 ^ 2))
          ((Argument a0 + Argument a1) / 2).
Proof.
  intros Hlen. do 3 eexists.
  split; [apply StatePreparationSBMComputeCoefficients_closed, Hlen |].
  rewrite !length_map, !length_seq. repeat split.
  - rewrite nth_map_seq by assumption.
    unfold pair_coordinates, BlochSphereCoordinates, ArgComplexPolar.
    cbn [fst snd]. lra.
  - rewrite nth_map_seq by assumption.
    unfold pair_coordinates, BlochSphereCoordinates, AbsComplexPolar.
    cbn [fst snd]. lra.
  - rewrite nth_map_seq by assumption.
    unfold pair_coordinates, BlochSphereCoordinates, AbsComplexPolar,
      ArgComplexPolar, Sqrt.
    cbn [fst snd]. f_equal; [f_equal; ring | lra].
Qed.

Lemma StatePreparationSBMComputeCoefficients_pairs_witness :
  let coefficients := [MkComplexPolar 3 0; MkComplexPolar 4 1] in
  exists disentanglingY disentanglingZ newCoefficients,
    StatePreparationSBMComputeCoefficients coefficients =
      Ok (disentanglingY, disentanglingZ, newCoefficients) /\
    length disentanglingY = 1%nat /\ length disentanglingZ = 1%nat /\
    length newCoefficients = 1%nat /\
    forall i, (i < 1)%nat ->
      let a0 := nth (2 * i) coefficients (MkComplexPolar 0 0) in
      let a1 := nth (2 * i + 1) coefficients (MkComplexPolar 0 0) in
      nth i disentanglingZ 0%R = ((Argument a1 - Argument a0) / 2)%R /\
      nth i disentanglingY 0%R = ArcTan2 (Magnitude a1) (Magnitude a0) /\
      nth i newCoefficients (MkComplexPolar 0 0) =
        MkComplexPolar (sqrt (Magnitude a0 ^ 2 + Magnitude a1 ^ 2))
          ((Argument a0 + Argument a1) / 2).
Proof.
  apply (StatePreparationSBMComputeCoefficients_pairs
           [MkComplexPolar 3 0; MkComplexPolar 4 1] 1).
  reflexivity.
Defined.

(** X4. On a coefficient array of odd length
    [StatePreparationSBMComputeCoefficients] fails: the last iteration of its
    loop reads one position past the end of the array. *)
Theorem StatePreparationSBMComputeCoefficients_odd_length
    (coefficients : list ComplexPolar) (m : nat) :
  length coefficients = (2 * m + 1)%nat ->
  StatePreparationSBMComputeCoefficients coefficients = Err IndexOutOfRange.
Proof. apply StatePreparationSBMComputeCoefficients_odd. Qed.

Lemma StatePreparationSBMComputeCoefficients_odd_length_witness :
  StatePreparationSBMComputeCoefficients
    [MkComplexPolar 1 0; MkComplexPolar 0 0; MkComplexPolar 1 0] =
  Err IndexOutOfRange.
Proof.
  apply (StatePreparationSBMComputeCoefficients_odd_length
           [MkComplexPolar 1 0; MkComplexPolar 0 0; MkComplexPolar 1 0] 1).
  reflexivity.
Defined.

(** X5. The squared norm of the merged coefficient vector is that of the
    input: each pair [(r0, r1)] is merged into [sqrt(r0^2 + r1^2)]. *)
Theorem StatePreparationSBMComputeCoefficients_norm
    (coefficients : list ComplexPolar) (m : nat) :
  length coefficients = (2 * m)%nat ->
  exists disentanglingY disentanglingZ newCoefficients,
    StatePreparationSBMComputeCoefficients coefficients =
      Ok (disentanglingY, disentanglingZ, newCoefficients) /\
    norm2 newCoefficients = norm2 coefficients.
Proof.
  intros Hlen. do 3 eexists. split.
  - apply StatePreparationSBMComputeCoefficients_closed, Hlen.
  - apply norm2_merged, Hlen.
Qed.

Lemma StatePreparationSBMComputeCoefficients_norm_witness :
  exists disentanglingY disentanglingZ newCoefficients,
    StatePreparationSBMComputeCoefficients
      [MkComplexPolar 3 0; MkComplexPolar 4 1] =
      Ok (disentanglingY, disentanglingZ, newCoefficients) /\
    norm2 newCoefficients = norm2 [MkComplexPolar 3 0; MkComplexPolar 4 1].
Proof.
  apply (StatePreparationSBMComputeCoefficients_norm
           [MkComplexPolar 3 0; MkComplexPolar 4 1] 1).
  reflexivity.
Defined.

(** X6. The coordinates [BlochSphereCoordinates] returns satisfy the identity
    of its documentation: with [(ComplexPolar(r, t), phi, theta)] the result
    on [(r0, t0)] and [(r1, t1)], [r0, r1 >= 0],
    [r * cos(theta/2) = r0], [r * sin(theta/2) = r1], [t - phi/2 = t0] and
    [t + phi/2 = t1]. *)
Theorem BlochSphereCoordinates_decomposition (r0 t0 r1 t1 : R) :
  (0 <= r0)%R -> (0 <= r1)%R ->
  let '(rt, phi, theta) :=
    BlochSphereCoordinates (MkComplexPolar r0 t0) (MkComplexPolar r1 t1) in
  (Magnitude rt * cos (theta / 2) = r0)%R /\
  (Magnitude rt * sin (theta / 2) = r1)%R /\
  (Argument rt - phi / 2 = t0)%R /\
  (Argument rt + phi / 2 = t1)%R.
Proof.
  intros H0 H1. unfold BlochSphereCoordinates, AbsComplexPolar,
    ArgComplexPolar, Sqrt. cbn [Magnitude Argument].
  replace (2.0 * ArcTan2 r1 r0 / 2)%R with (ArcTan2 r1 r0) by lra.
  destruct (ArcTan2_quadrant r1 r0 H0 H1) as [Hc Hs].
  repeat split; [exact Hc | exact Hs | lra | lra].
Qed.

Lemma BlochSphereCoordinates_decomposition_witness :
  let '(rt, phi, theta) :=
    BlochSphereCoordinates (MkComplexPolar 3 0) (MkComplexPolar 4 1) in
  (Magnitude rt * cos (theta / 2) = 3)%R /\
  (Magnitude rt * sin (theta / 2) = 4)%R /\
  (Argument rt - phi / 2 = 0)%R /\
  (Argument rt + phi / 2 = 1)%R.
Proof.
  apply (BlochSphereCoordinates_decomposition 3 0 4 1); lra.
Defined.

(** X7. [AnyOutsideToleranceCP] holds exactly when some coefficient has a
    magnitude strictly above the tolerance. *)
Theorem AnyOutsideToleranceCP_iff (tolerance : R)
    (coefficients : list ComplexPolar) :
  AnyOutsideToleranceCP tolerance coefficients = true <->
  exists i c, coefficients !! i = Some c /\ (Magnitude c > tolerance)%R.
Proof.
  rewrite AnyOutsideToleranceCP_spec. split.
  - intros [c [Hin Hc]]. apply list_elem_of_In, list_elem_of_lookup in Hin.
    destruct Hin as [i Hi]. eauto.
  - intros [i [c [Hi Hc]]]. exists c. split; [| exact Hc].
    apply list_elem_of_In, list_elem_of_lookup. eauto.
Qed.

(** X8. Whatever its arguments and in both specialisations,
    [ApproximatelyMultiplexZ] on [k] control qubits emits at most
    [3 * 2^k - 2] gates, and each of them is a [Z] rotation of the target or
    a [CNOT] from one of the control qubits onto the target. *)
Theorem ApproximatelyMultiplexZ_gates_bound (fuel : nat) (f : Functor)
    (tolerance : R) (coefficients : list R) (control : list Qubit)
    (target : Qubit) :
  let tr := trace (ApproximatelyMultiplexZ fuel f tolerance coefficients
                     control target) in
  (length tr <= 3 * 2 ^ length control - 2)%nat /\
  Forall (fun g =>
            (exists theta, g = GateExp [PauliZ] theta [target]) \/
            (exists c, In c control /\ g = GateCNOT c target)) tr.
Proof.
  split.
  - apply ApproximatelyMultiplexZ_gate_count.
  - apply ApproximatelyMultiplexZ_gates.
Qed.

(** X9. At a positive tolerance an all-zero angle vector is pruned whole:
    [ApproximatelyMultiplexZ] returns without emitting any gate. *)
Theorem ApproximatelyMultiplexZ_zero_angles_pruned (fuel : nat) (f : Functor)
    (tolerance : R) (angles : list R) (control : list Qubit) (target : Qubit) :
  (0 < tolerance)%R ->
  Forall (fun x => x = 0%R) angles ->
  (length control <= fuel)%nat ->
  Length angles <= 2 ^ Length control ->
  ApproximatelyMultiplexZ fuel f tolerance angles control target = ([], Ok tt).
Proof.
  intros Htol Hzero Hfuel Hlen.
  apply ApproximatelyMultiplexZ_zero_pruned; assumption.
Qed.

Lemma ApproximatelyMultiplexZ_zero_angles_pruned_witness :
  ApproximatelyMultiplexZ 2 Body 1 [0; 0; 0; 0]%R [5%nat; 6%nat] 7%nat =
  ([], Ok tt).
Proof.
  apply (ApproximatelyMultiplexZ_zero_angles_pruned 2 Body 1 [0; 0; 0; 0]%R
           [5%nat; 6%nat] 7%nat).
  - lra.
  - repeat constructor.
  - simpl. lia.
  - unfold Length. simpl. lia.
Defined.

(** X10. At tolerance [0] an all-zero angle vector is not pruned but emits no
    rotation: on [k] control qubits [ApproximatelyMultiplexZ] returns after
    emitting exactly [2^(k+1) - 2] gates, all of them [CNOT]s from a control
    qubit onto the target. *)
Theorem ApproximatelyMultiplexZ_zero_angles_exact (fuel : nat) (f : Functor)
    (angles : list R) (control : list Qubit) (target : Qubit) :
  Forall (fun x => x = 0%R) angles ->
  (length control <= fuel)%nat ->
  Length angles <= 2 ^ Length control ->
  exists tr,
    ApproximatelyMultiplexZ fuel f 0 angles control target = (tr, Ok tt) /\
    Forall (fun g => exists c, In c control /\ g = GateCNOT c target) tr /\
    length tr = (2 ^ S (length control) - 2)%nat.
Proof.
  intros Hzero Hfuel Hlen.
  apply ApproximatelyMultiplexZ_zero_exact; assumption.
Qed.

Lemma ApproximatelyMultiplexZ_zero_angles_exact_witness :
  exists tr,
    ApproximatelyMultiplexZ 2 Body 0 [0; 0; 0; 0]%R [5%nat; 6%nat] 7%nat =
      (tr, Ok tt) /\
    Forall (fun g => exists c, In c [5%nat; 6%nat] /\ g = GateCNOT c 7%nat) tr /\
    length tr = (2 ^ 3 - 2)%nat.
Proof.
  apply (ApproximatelyMultiplexZ_zero_angles_exact 2 Body [0; 0; 0; 0]%R
           [5%nat; 6%nat] 7%nat).
  - repeat constructor.
  - simpl. lia.
  - unfold Length. simpl. lia.
Defined.

(** X11. An angle vector shorter than [2^k] behaves as the same vector padded
    with zeros at its tail, as the remarks of the source say. *)
Theorem ApproximatelyMultiplexZ_pads_with_zeros (fuel : nat) (f : Functor)
    (tolerance : R) (angles : list R) (control : list Qubit) (target : Qubit) :
  Length angles <= 2 ^ Length control ->
  ApproximatelyMultiplexZ fuel f tolerance angles control target =
  ApproximatelyMultiplexZ fuel f tolerance
    (angles ++ repeat 0.0%R (Z.to_nat (2 ^ Length control - Length angles)))
    control target.
Proof. apply ApproximatelyMultiplexZ_padding. Qed.

Lemma ApproximatelyMultiplexZ_pads_with_zeros_witness :
  ApproximatelyMultiplexZ 1 Body 0 [1%R] [5%nat] 7%nat =
  ApproximatelyMultiplexZ 1 Body 0 ([1%R] ++ repeat 0.0%R 1) [5%nat] 7%nat.
Proof.
  apply (ApproximatelyMultiplexZ_pads_with_zeros 1 Body 0 [1%R] [5%nat] 7%nat).
  unfold Length. simpl. lia.
Defined.

(** X12. In every branch of [ApproximatelyMultiplexPauli] (axes [I], [X], [Y]
    and [Z]) the adjoint specialisation emits the gates of the body in
    reverse order, each replaced by its adjoint, whenever the body returns. *)
Theorem ApproximatelyMultiplexPauli_adjoint (fuel : nat) (tolerance : R)
    (coefficients : list R) (pauli : Pauli) (control : list Qubit)
    (target : Qubit) (tr : list Gate) :
  ApproximatelyMultiplexPauli fuel Body tolerance coefficients pauli control
    target = (tr, Ok tt) ->
  ApproximatelyMultiplexPauli fuel Adjoint tolerance coefficients pauli control
    target = (trace_adjoint tr, Ok tt).
Proof. apply (ApproximatelyMultiplexPauli_inverts fuel Body). Qed.

Lemma ApproximatelyMultiplexPauli_adjoint_witness :
  ApproximatelyMultiplexPauli 0 Adjoint 0 [1%R] PauliY [] 4%nat =
  (trace_adjoint
     [GateAdjS 4%nat; GateH 4%nat; GateExp [PauliZ] 1 [4%nat]; GateH 4%nat;
      GateS 4%nat], Ok tt).
Proof.
  apply (ApproximatelyMultiplexPauli_adjoint 0 0 [1%R] PauliY [] 4%nat).
  apply (ApproximatelyMultiplexPauli_Y_run 0 Body 0 [1%R] [] 4%nat
           [GateExp [PauliZ] 1 [4%nat]]).
  rewrite (ApproximatelyMultiplexZ_leaf _ _ _ _ 1%R) by reflexivity.
  unfold AbsD. rewrite Rabs_R1. case_decide; [reflexivity | lra].
Defined.

(** X13. The adjoint specialisation of [ApproximatelyPreparePureStateCP]
    emits the gates of the body in reverse order, each replaced by its
    adjoint, whenever the body returns. *)
Theorem ApproximatelyPreparePureStateCP_adjoint (fuel : nat) (tolerance : R)
    (coefficients : list ComplexPolar) (qubits : list Qubit) (tr : list Gate) :
  ApproximatelyPreparePureStateCP fuel Body tolerance coefficients qubits =
    (tr, Ok tt) ->
  ApproximatelyPreparePureStateCP fuel Adjoint tolerance coefficients qubits =
    (trace_adjoint tr, Ok tt).
Proof. apply (ApproximatelyPreparePureStateCP_inverts fuel Body). Qed.

Lemma ApproximatelyPreparePureStateCP_adjoint_witness :
  ApproximatelyPreparePureStateCP 0 Adjoint 0.0
    (map RealAsComplexPolar [1; 0]%R) [3%nat] =
  (trace_adjoint [GateAdjS 3%nat; GateH 3%nat; GateH 3%nat; GateS 3%nat],
   Ok tt).
Proof.
  apply (ApproximatelyPreparePureStateCP_adjoint 0 0.0
           (map RealAsComplexPolar [1; 0]%R) [3%nat]).
  apply (PreparePureStateD_basis_state_run 0 3%nat).
Defined.

(** X14. [ApproximatelyApplyDiagonalUnitary] on a register of [n] qubits
    emits at most [3 * 2^n - 2] gates, whatever its arguments, and every one
    of them acts on qubits of that register only. *)
Theorem ApproximatelyApplyDiagonalUnitary_gates_bound (fuel : nat)
    (f : Functor) (tolerance : R) (coefficients : list R)
    (qubits : list Qubit) :
  let tr := trace (ApproximatelyApplyDiagonalUnitary fuel f tolerance
                     coefficients qubits) in
  (length tr <= 3 * 2 ^ length qubits - 2)%nat /\
  Forall (fun g => forall q, In q (gate_qubits g) -> In q qubits) tr.
Proof.
  split.
  - apply ApproximatelyApplyDiagonalUnitary_gate_count.
  - apply ApproximatelyApplyDiagonalUnitary_acts_within.
Qed.

(** X15. [ApproximatelyMultiplexPauli] on [k] control qubits emits at most
    [3 * 2^k - 2] gates plus its basis changes (two for axis [X], four for
    axis [Y]), and every gate acts on the target or on control qubits only. *)
Theorem ApproximatelyMultiplexPauli_gates_bound (fuel : nat) (f : Functor)
    (tolerance : R) (coefficients : list R) (pauli : Pauli)
    (control : list Qubit) (target : Qubit) :
  let tr := trace (ApproximatelyMultiplexPauli fuel f tolerance coefficients
                     pauli control target) in
  (length tr <=
   3 * 2 ^ length control - 2 +
   match pauli with PauliY => 4 | PauliX => 2 | PauliZ | PauliI => 0 end)%nat /\
  Forall (fun g => forall q, In q (gate_qubits g) -> In q (target :: control))
    tr.
Proof.
  split.
  - apply ApproximatelyMultiplexPauli_gate_count.
  - apply (ApproximatelyMultiplexPauli_acts_within (target :: control)).
    + apply incl_tl, incl_refl.
    + left. reflexivity.
Qed.

Lemma ApproximatelyPreparePureStateCP_gate_count (fuel : nat) (f : Functor)
    (tolerance : R) (coefficients : list ComplexPolar) (qubits : list Qubit) :
  qubits <> [] ->
  (length (trace (ApproximatelyPreparePureStateCP fuel f tolerance coefficients
                    qubits))
   <= 6 * 2 ^ length qubits - 5)%nat.
Proof.
  intros Hne. unfold ApproximatelyPreparePureStateCP.
  apply length_trace_pure; intros padded.
  destruct qubits as [| q qs]; [contradiction |].
  eapply Nat.le_trans.
  - apply ApproximatelyUnprepareArbitraryState_gate_count.
    destruct (1 <? Length (q :: qs)); reflexivity.
  - assert (Hsz : range_size
                    (if 1 <? Length (q :: qs)
                     then range 1 (Length (q :: qs) - 1) else range 1 0)
                  = length qs).
    { unfold Length. cbn [length].
      destruct (Z.ltb_spec 1 (Z.of_nat (S (length qs)))).
      - unfold range, range_size. simpl RangeStart.
        destruct (Z.ltb_spec 0 1); [| lia].
        destruct (Z.leb_spec 1 (Z.of_nat (S (length qs)) - 1)); [| lia].
        rewrite Z.div_1_r. lia.
      - destruct qs; [reflexivity | simpl in *; lia]. }
    rewrite Hsz. cbn [length]. rewrite Nat.pow_succ_r'.
    pose proof (pow2_nat_pos (length qs)). lia.
Qed.

Lemma ApproximatelyPreparePureStateCP_acts_within (fuel : nat) (f : Functor)
    (tolerance : R) (coefficients : list ComplexPolar) (qubits : list Qubit) :
  Forall (acts_within qubits)
    (trace (ApproximatelyPreparePureStateCP fuel f tolerance coefficients
              qubits)).
Proof.
  unfold ApproximatelyPreparePureStateCP.
  apply Forall_trace_pure; intros padded.
  apply ApproximatelyUnprepareArbitraryState_acts_within.
Qed.

(** X16. Both preparation entry points, on a non-empty register of [n]
    qubits, emit at most [6 * 2^n - 5] gates, whatever the coefficients and
    the tolerance, and every gate acts on qubits of the register only. *)
Theorem prepare_gates_bound (fuel : nat) (f : Functor) (tolerance : R)
    (coefficients : list ComplexPolar) (reals : list R) (qubits : list Qubit) :
  qubits <> [] ->
  let tr := trace (ApproximatelyPreparePureStateCP fuel f tolerance
                     coefficients qubits) in
  let tr' := trace (PreparePureStateD fuel f reals qubits) in
  (length tr <= 6 * 2 ^ length qubits - 5)%nat /\
  (length tr' <= 6 * 2 ^ length qubits - 5)%nat /\
  Forall (fun g => forall q, In q (gate_qubits g) -> In q qubits) tr /\
  Forall (fun g => forall q, In q (gate_qubits g) -> In q qubits) tr'.
Proof.
  intros Hne. repeat split.
  - apply ApproximatelyPreparePureStateCP_gate_count, Hne.
  - apply ApproximatelyPreparePureStateCP_gate_count, Hne.
  - apply ApproximatelyPreparePureStateCP_acts_within.
  - apply ApproximatelyPreparePureStateCP_acts_within.
Qed.

Lemma prepare_gates_bound_witness :
  let tr := trace (ApproximatelyPreparePureStateCP 1 Body (-1)
                     [MkComplexPolar 1 0; MkComplexPolar 0 0] [3%nat]) in
  let tr' := trace (PreparePureStateD 1 Body [1; 0]%R [3%nat]) in
  (length tr <= 6 * 2 ^ 1 - 5)%nat /\
  (length tr' <= 6 * 2 ^ 1 - 5)%nat /\
  Forall (fun g => forall q, In q (gate_qubits g) -> In q [3%nat]) tr /\
  Forall (fun g => forall q, In q (gate_qubits g) -> In q [3%nat]) tr'.
Proof.
  apply (prepare_gates_bound 1 Body (-1)
           [MkComplexPolar 1 0; MkComplexPolar 0 0] [1; 0]%R [3%nat]).
  discriminate.
Defined.

(** X17. On an empty register both preparation entry points fail, with an
    index out of range in [StatePreparationSBMComputeCoefficients] and
    before any gate is emitted, for at most one coefficient (the single-entry
    array the padding produces has odd length). *)
Theorem prepare_empty_register (fuel : nat) (f : Functor) (tolerance : R)
    (coefficients : list ComplexPolar) (reals : list R) :
  Length coefficients <= 1 ->
  Length reals <= 1 ->
  ApproximatelyPreparePureStateCP fuel f tolerance coefficients [] =
    ([], Err IndexOutOfRange) /\
  PreparePureStateD fuel f reals [] = ([], Err IndexOutOfRange).
Proof.
  intros Hc Hr. split.
  - apply ApproximatelyPreparePureStateCP_empty_register_run, Hc.
  - apply ApproximatelyPreparePureStateCP_empty_register_run.
    unfold Length. rewrite length_map. exact Hr.
Qed.

Lemma prepare_empty_register_witness :
  ApproximatelyPreparePureStateCP 1 Body 0 [MkComplexPolar 1 0] [] =
    ([], Err IndexOutOfRange) /\
  PreparePureStateD 1 Body [1%R] [] = ([], Err IndexOutOfRange).
Proof.
  apply (prepare_empty_register 1 Body 0 [MkComplexPolar 1 0] [1%R]);
    unfold Length; simpl; lia.
Defined.

(** X18. At a positive tolerance, coefficients that are all [(0, 0)] (an empty
    array among them) give the empty circuit: on a non-empty register
    [ApproximatelyPreparePureStateCP] returns without emitting any gate. *)
Theorem ApproximatelyPreparePureStateCP_zero_state (fuel : nat) (f : Functor)
    (tolerance : R) (coefficients : list ComplexPolar) (qubits : list Qubit) :
  (0 < tolerance)%R ->
  Forall (fun c => Magnitude c = 0%R /\ Argument c = 0%R) coefficients ->
  qubits <> [] ->
  Length coefficients <= 2 ^ Length qubits ->
  ApproximatelyPreparePureStateCP fuel f tolerance coefficients qubits =
  ([], Ok tt).
Proof.
  intros Htol Hzero Hne Hlen.
  apply ApproximatelyPreparePureStateCP_zero_run; assumption.
Qed.

Lemma ApproximatelyPreparePureStateCP_zero_state_witness :
  ApproximatelyPreparePureStateCP 0 Body 1 [MkComplexPolar 0 0]
    [3%nat; 4%nat] = ([], Ok tt).
Proof.
  apply (ApproximatelyPreparePureStateCP_zero_state 0 Body 1
           [MkComplexPolar 0 0] [3%nat; 4%nat]).
  - lra.
  - repeat constructor.
  - discriminate.
  - unfold Length. simpl. lia.
Defined.

(** X19. On one qubit and two angles [a], [b] the diagonal unitary is a [Z]
    rotation of the qubit by [(a - b) / 2] followed by a global phase of
    [(a + b) / 2], each emitted only when its magnitude exceeds the
    tolerance. *)
Theorem ApproximatelyApplyDiagonalUnitary_base_case (fuel : nat)
    (tolerance : R) (a b : R) (q : Qubit) :
  ApproximatelyApplyDiagonalUnitary fuel Body tolerance [a; b] [q] =
  ((if decide (Rabs (0.5 * (a - b)) > tolerance)%R
    then [GateExp [PauliZ] (0.5 * (a - b)) [q]] else []) ++
   (if decide (Rabs (0.5 * (a + b)) > tolerance)%R
    then [GateExp [PauliI] (1.0 * (0.5 * (a + b))) [q]] else []),
   Ok tt).
Proof. apply ApproximatelyApplyDiagonalUnitary_one_qubit. Qed.

(** X20. [PreparePureStateD] returns normally on every non-empty register of
    [n] qubits and every array of at most [2^n] real coefficients, in both
    specialisations. *)
Theorem PreparePureStateD_succeeds (fuel : nat) (f : Functor)
    (reals : list R) (qubits : list Qubit) :
  qubits <> [] ->
  Length reals <= 2 ^ Length qubits ->
  (length qubits <= fuel)%nat ->
  outcome (PreparePureStateD fuel f reals qubits) = Ok tt.
Proof.
  intros Hne Hlen Hfuel. unfold PreparePureStateD.
  apply ApproximatelyPreparePureStateCP_succeeds; [exact Hne | | exact Hfuel].
  unfold Length at 1. rewrite length_map. exact Hlen.
Qed.

Lemma PreparePureStateD_succeeds_witness :
  outcome (PreparePureStateD 2 Body [1; 0; 1]%R [3%nat; 4%nat]) = Ok tt.
Proof.
  apply (PreparePureStateD_succeeds 2 Body [1; 0; 1]%R [3%nat; 4%nat]).
  - discriminate.
  - unfold Length. simpl. lia.
  - simpl. lia.
Defined.

(** X21. With a control range of step [1] that designates [k] qubits,
    [ApproximatelyUnprepareArbitraryState] emits at most [12 * 2^k - 5]
    gates, whatever its other arguments, and every gate acts on qubits of
    the register only. *)
Theorem ApproximatelyUnprepareArbitraryState_gates_bound (fuel : nat)
    (f : Functor) (tolerance : R) (coefficients : list ComplexPolar)
    (rngControl : Range) (idxTarget : Z) (register : list Qubit) :
  RangeStep rngControl = 1 ->
  let tr := trace (ApproximatelyUnprepareArbitraryState fuel f tolerance
                     coefficients rngControl idxTarget register) in
  (length tr <= 12 * 2 ^ range_size rngControl - 5)%nat /\
  Forall (fun g => forall q, In q (gate_qubits g) -> In q register) tr.
Proof.
  intros Hstep. split.
  - apply ApproximatelyUnprepareArbitraryState_gate_count, Hstep.
  - apply ApproximatelyUnprepareArbitraryState_acts_within.
Qed.

Lemma ApproximatelyUnprepareArbitraryState_gates_bound_witness :
  let tr := trace (ApproximatelyUnprepareArbitraryState 1 Body 0
                     [MkComplexPolar 1 0; MkComplexPolar 0 0;
                      MkComplexPolar 0 0; MkComplexPolar 1 0]
                     (range 1 1) 0 [3%nat; 4%nat]) in
  (length tr <= 12 * 2 ^ range_size (range 1 1) - 5)%nat /\
  Forall (fun g => forall q, In q (gate_qubits g) -> In q [3%nat; 4%nat]) tr.
Proof.
  apply (ApproximatelyUnprepareArbitraryState_gates_bound 1 Body 0
           [MkComplexPolar 1 0; MkComplexPolar 0 0;
            MkComplexPolar 0 0; MkComplexPolar 1 0]
           (range 1 1) 0 [3%nat; 4%nat]).
  reflexivity.
Defined.
